(** * The animated background shader of [src/App.tsx]

    The page draws one rectangle with a fragment program that is a closed
    formula of the interpolated texture coordinate and of the elapsed time.
    This development embeds that fragment program over the real numbers,
    embeds the React component that feeds it its uniforms as a small
    transition system, and proves the properties the specification states
    about both.

    Floating-point numbers are idealised as real numbers throughout: a GLSL
    [float] is an [R].  The operations that can fail on a GPU (a division, a
    square root) are also given a checked form, so that the absence of a
    failing step is a theorem and not a convention of [Rdiv] and [sqrt]. *)

From Stdlib Require Import Reals Lra Lia ZArith List Psatz Bool.
Import ListNotations.

Local Open Scope R_scope.

(** ** GLSL values and built-in functions *)

Module GLSL.

Record vec2 : Type := Vec2 { vx : R; vy : R }.
Record vec3 : Type := Vec3 { cr : R; cg : R; cb : R }.
Record vec4 : Type := Vec4 { rgb : vec3; alpha : R }.

(** [mat2(a, b, c, d)] is column-major: the first column is [(a, b)]. *)
Record mat2 : Type := Mat2 { col0 : vec2; col1 : vec2 }.

Definition dot (a b : vec2) : R := vx a * vx b + vy a * vy b.

Definition length (p : vec2) : R := sqrt (dot p p).

(** [floor] on the reals is [Int_part]; [fract x = x - floor x]. *)
Definition fract (x : R) : R := x - IZR (Int_part x).

Definition clamp (x lo hi : R) : R := Rmin (Rmax x lo) hi.

Definition smoothstep (edge0 edge1 x : R) : R :=
  let t := clamp ((x - edge0) / (edge1 - edge0)) 0 1 in
  t * t * (3 - 2 * t).

Definition mix (x y a : R) : R := x * (1 - a) + y * a.

(** Component-wise liftings used by the program. *)
Definition vec2_sub_scalar (p : vec2) (k : R) : vec2 := Vec2 (vx p - k) (vy p - k).
Definition vec2_scale (p : vec2) (k : R) : vec2 := Vec2 (vx p * k) (vy p * k).
Definition vec2_map (f : R -> R) (p : vec2) : vec2 := Vec2 (f (vx p)) (f (vy p)).

(** A vector on the left of a matrix is a row vector: component [j] of the
    product is the dot product with column [j]. *)
Definition vec2_mul_mat2 (v : vec2) (m : mat2) : vec2 :=
  Vec2 (dot v (col0 m)) (dot v (col1 m)).

Definition vec3_splat (k : R) : vec3 := Vec3 k k k.
Definition vec3_add (a b : vec3) : vec3 := Vec3 (cr a + cr b) (cg a + cg b) (cb a + cb b).
Definition vec3_add_scalar (a : vec3) (k : R) : vec3 := Vec3 (cr a + k) (cg a + k) (cb a + k).
Definition vec3_scale (a : vec3) (k : R) : vec3 := Vec3 (cr a * k) (cg a * k) (cb a * k).
Definition vec3_mix (a b : vec3) (k : R) : vec3 :=
  Vec3 (mix (cr a) (cr b) k) (mix (cg a) (cg b) k) (mix (cb a) (cb b) k).

End GLSL.

Import GLSL.

(** ** The fragment program *)

Module FragmentShader.

Record uniforms : Type := Uniforms { uTime : R; uResolution : vec2 }.

Definition sdCircle (p : vec2) (r : R) : R := length p - r.

Definition rot (a : R) : mat2 :=
  let c := cos a in
  let s := sin a in
  Mat2 (Vec2 c (- s)) (Vec2 s c).

(** The loop counter is a float that takes the values 0, 1 and 2; it is a
    [nat] here and enters the arithmetic through [INR]. *)
Definition layers : list nat := [0%nat; 1%nat; 2%nat].

(** [vec2 p = uv * rot(time * 0.1 * (i + 1.0)); p *= 1.0 + i * 0.3;] *)
Definition rotate_scale (i : nat) (time : R) (uv : vec2) : vec2 :=
  let p := vec2_mul_mat2 uv (rot (time * 0.1 * (INR i + 1))) in
  vec2_scale p (1 + INR i * 0.3).

(** The two assignments of the wave distortion, each acting on the
    current value of the mutable variable [p]. *)
Definition wave_x (i : nat) (time : R) (p : vec2) : vec2 :=
  Vec2 (vx p + sin (vy p * 3 + time * (1 + INR i * 0.5)) * 0.3) (vy p).

Definition wave_y (i : nat) (time : R) (p : vec2) : vec2 :=
  Vec2 (vx p) (vy p + cos (vx p * 2 + time * (1.2 + INR i * 0.3)) * 0.2).

Definition wave (i : nat) (time : R) (p : vec2) : vec2 :=
  wave_y i time (wave_x i time p).

(** [p = fract(p * 1.5) - 0.5;] *)
Definition tile (p : vec2) : vec2 :=
  vec2_sub_scalar (vec2_map fract (vec2_scale p 1.5)) 0.5.

(** The distance field and its banding: the four assignments to [d]. *)
Definition band (i : nat) (time : R) (p : vec2) : R :=
  let d := sdCircle p (0.2 - INR i * 0.05) in
  let d := Rabs (sin (d * 8 + time * 2)) / 8 in
  let d := smoothstep 0 0.1 d in
  1 - d.

(** The three guarded assignments to [layerColor], which starts at zero. *)
Definition layerColor (i : nat) : vec3 :=
  match i with
  | 0%nat => Vec3 0.15 0.25 0.4
  | 1%nat => Vec3 0.25 0.15 0.35
  | 2%nat => Vec3 0.2 0.3 0.25
  | _ => vec3_splat 0
  end.

(** The pattern of one layer as a function of the point that enters the
    tiling step. *)
Definition pattern (i : nat) (time : R) (p : vec2) : R := band i time (tile p).

Definition contribution (i : nat) (d : R) : vec3 :=
  vec3_scale (vec3_scale (layerColor i) d) (0.6 - INR i * 0.1).

(** One iteration of the loop body: [col += layerColor * d * (0.6 - i * 0.1)]. *)
Definition layer (time : R) (uv : vec2) (col : vec3) (i : nat) : vec3 :=
  let p := rotate_scale i time uv in
  let p := wave i time p in
  let d := pattern i time p in
  vec3_add col (contribution i d).

Definition base_background : vec3 := Vec3 0.08 0.12 0.18.

Definition noise (uv : vec2) : R :=
  fract (sin (dot uv (Vec2 12.9898 78.233)) * 43758.5453).

Definition vignette (uv : vec2) : R := 1 - length (vec2_scale uv 0.5).

Definition vignette_factor (uv : vec2) : R := 0.7 + 0.3 * vignette uv.

(** [background += noise * 0.02;] *)
Definition background (uv : vec2) : vec3 :=
  vec3_add_scalar base_background (noise uv * 0.02).

(** The colour before the vignette is applied. *)
Definition unvignetted (uv : vec2) (time : R) : vec3 :=
  let col := fold_left (layer time uv) layers (vec3_splat 0) in
  let background := background uv in
  vec3_mix background (vec3_add background col) 0.8.

(** The body of [main] from the normalised coordinate on. *)
Definition shade (uv : vec2) (time : R) : vec3 :=
  vec3_scale (unvignetted uv time) (vignette_factor uv).

(** [main]: the varying [vUv] is normalised, the time uniform is slowed
    down, and the colour is written with alpha one. *)
Definition main (u : uniforms) (vUv : vec2) : vec4 :=
  let uv := vec2_scale (vec2_sub_scalar vUv 0.5) 2 in
  let time := uTime u * 0.3 in
  Vec4 (shade uv time) 1.

(** The shading function of the specification: normalised coordinate and
    elapsed seconds to colour. *)
Definition shading (uv : vec2) (t : R) : vec3 := shade uv (t * 0.3).

End FragmentShader.

Import FragmentShader.

(** ** The same program with checked arithmetic

    On the GPU a division by zero or the square root of a negative number
    does not stop the program but poisons the result.  Here such a step is a
    failure: the program runs in the error monad [option], and every other
    operation is as above. *)

Module Checked.

Definition bind {A B : Type} (m : option A) (k : A -> option B) : option B :=
  match m with
  | Some a => k a
  | None => None
  end.

Notation "x <- m ;; k" := (bind m (fun x => k))
  (at level 61, m at next level, right associativity).

Definition div (a b : R) : option R :=
  if Req_dec_T b 0 then None else Some (a / b).

Definition sqrt (a : R) : option R :=
  if Rlt_dec a 0 then None else Some (R_sqrt.sqrt a).

Definition length (p : vec2) : option R := sqrt (dot p p).

Definition smoothstep (edge0 edge1 x : R) : option R :=
  q <- div (x - edge0) (edge1 - edge0) ;;
  let t := clamp q 0 1 in
  Some (t * t * (3 - 2 * t)).

Definition sdCircle (p : vec2) (r : R) : option R :=
  l <- length p ;; Some (l - r).

Definition band (i : nat) (time : R) (p : vec2) : option R :=
  d <- sdCircle p (0.2 - INR i * 0.05) ;;
  d <- div (Rabs (sin (d * 8 + time * 2))) 8 ;;
  d <- smoothstep 0 0.1 d ;;
  Some (1 - d).

Definition layer (time : R) (uv : vec2) (col : option vec3) (i : nat) : option vec3 :=
  col <- col ;;
  let p := rotate_scale i time uv in
  let p := wave i time p in
  d <- band i time (tile p) ;;
  Some (vec3_add col (contribution i d)).

Definition shade (uv : vec2) (time : R) : option vec3 :=
  col <- fold_left (layer time uv) layers (Some (vec3_splat 0)) ;;
  let background := background uv in
  let col := vec3_mix background (vec3_add background col) 0.8 in
  l <- length (vec2_scale uv 0.5) ;;
  let vignette := 1 - l in
  Some (vec3_scale col (0.7 + 0.3 * vignette)).

Definition main (u : uniforms) (vUv : vec2) : option vec4 :=
  let uv := vec2_scale (vec2_sub_scalar vUv 0.5) 2 in
  let time := uTime u * 0.3 in
  col <- shade uv time ;;
  Some (Vec4 col 1).

End Checked.

(** ** The component that hosts the program

    [ShaderPlane] is a function component.  Each time it is rendered it asks
    [useMemo] for the uniforms object, with an empty dependency list, and
    describes one mesh with a plane geometry; a frame callback registered
    with [useFrame] writes the clock into the time uniform.  The uniforms
    object is one JavaScript object shared by the memo cell and the
    material, so the state below holds it once. *)

Module Host.

(** The browser window: [window.innerWidth] and [window.innerHeight]. *)
Record window : Type := Window { innerWidth : Z; innerHeight : Z }.

(** [<planeGeometry args={[2, 2]} />]: a rectangle centred at the origin of
    the mesh, given by its width and height. *)
Record planeGeometry : Type := PlaneGeometry { width : R; height : R }.

Definition corners (g : planeGeometry) : list vec2 :=
  [ Vec2 (- width g / 2) (height g / 2); Vec2 (width g / 2) (height g / 2);
    Vec2 (- width g / 2) (- height g / 2); Vec2 (width g / 2) (- height g / 2) ].

Record mesh : Type := Mesh { geometry : planeGeometry; scale : R * R * R }.

Record state : Type := State {
  win : window;                 (* the live viewport *)
  memo : option uniforms;       (* the cell of [useMemo(..., [])] *)
  meshRef : option mesh         (* [meshRef.current], null until mounted *)
}.

Inductive event : Type :=
| Render                        (* React calls the component function *)
| Frame (elapsedTime : R)       (* the [useFrame] callback runs *)
| Resize (w h : Z).             (* the browser window changes size *)

Definition initial (w : window) : state := State w None None.

(** The factory passed to [useMemo]. *)
Definition make_uniforms (w : window) : uniforms :=
  Uniforms 0 (Vec2 (IZR (innerWidth w)) (IZR (innerHeight w))).

(** With an empty dependency list the factory runs on the first render
    only; later renders return the cached object. *)
Definition useMemo (s : state) : uniforms :=
  match memo s with
  | Some u => u
  | None => make_uniforms (win s)
  end.

Definition mount_mesh (s : state) : mesh :=
  match meshRef s with
  | Some m => m
  | None => Mesh (PlaneGeometry 2 2) (2, 2, 1)
  end.

Definition step (s : state) (e : event) : state :=
  match e with
  | Render => State (win s) (Some (useMemo s)) (Some (mount_mesh s))
  | Frame elapsedTime =>
      match meshRef s, memo s with
      | Some _, Some u =>
          State (win s) (Some (Uniforms elapsedTime (uResolution u))) (meshRef s)
      | _, _ => s
      end
  | Resize w h => State (Window w h) (memo s) (meshRef s)
  end.

Definition run (s : state) (es : list event) : state := fold_left step es s.

(** The live viewport size as the program would see it in a uniform. *)
Definition viewport (s : state) : vec2 :=
  Vec2 (IZR (innerWidth (win s))) (IZR (innerHeight (win s))).

(** The colour of one pixel of the frame drawn in state [s]. *)
Definition draw (s : state) (vUv : vec2) : option vec4 :=
  match memo s with
  | Some u => Some (main u vUv)
  | None => None
  end.

End Host.

(** ** Interval evaluation of the program

    To compare the colours of two given pixels the program is also
    evaluated on intervals with fixed-point endpoints: an interval holds
    two integers, the lower and the upper bound counted in units of
    [1/scale].  Every operation rounds outwards.  The soundness of this
    evaluator with respect to the program above is proved further down;
    nothing about the program is taken from it. *)

(** The partial sums of the sine and cosine series, as sums of products
    nested from the inside: with [u] the square of the argument,
    [sin x = x * (1 - u/(2*3) * (1 - u/(4*5) * (1 - ...)))] and
    [cos x = 1 - u/(1*2) * (1 - u/(3*4) * (1 - ...))]. *)
Fixpoint series_sin (u : R) (k m : nat) : R :=
  match m with
  | O => 1
  | S m' =>
      1 - u * series_sin u (S k) m'
            / IZR ((2 * Z.of_nat k + 2) * (2 * Z.of_nat k + 3))
  end.

Fixpoint series_cos (u : R) (k m : nat) : R :=
  match m with
  | O => 1
  | S m' =>
      1 - u * series_cos u (S k) m'
            / IZR ((2 * Z.of_nat k + 1) * (2 * Z.of_nat k + 2))
  end.

Module Interval.

Local Open Scope Z_scope.

Definition scale : Z := 1000000000000.

Record interval : Type := Itv { lo : Z; hi : Z }.

Definition contains (I : interval) (x : R) : Prop :=
  (IZR (lo I) <= x * IZR scale <= IZR (hi I))%R.

(** Division rounded up, for a positive divisor. *)
Definition cdiv (a b : Z) : Z := - ((- a) / b).

(** The rational [n / d], [d] positive. *)
Definition const (n d : Z) : interval :=
  Itv (n * scale / d) (cdiv (n * scale) d).

Definition of_Z (n : Z) : interval := const n 1.

Definition add (I J : interval) : interval := Itv (lo I + lo J) (hi I + hi J).
Definition opp (I : interval) : interval := Itv (- hi I) (- lo I).
Definition sub (I J : interval) : interval := add I (opp J).

Definition min4 (a b c d : Z) : Z := Z.min (Z.min a b) (Z.min c d).
Definition max4 (a b c d : Z) : Z := Z.max (Z.max a b) (Z.max c d).

Definition mul (I J : interval) : interval :=
  let a := lo I * lo J in
  let b := lo I * hi J in
  let c := hi I * lo J in
  let d := hi I * hi J in
  Itv (min4 a b c d / scale) (cdiv (max4 a b c d) scale).

(** Division by a positive integer. *)
Definition divZ (I : interval) (m : Z) : interval :=
  Itv (lo I / m) (cdiv (hi I) m).

Definition abs (I : interval) : interval :=
  if 0 <=? lo I then I
  else if hi I <=? 0 then opp I
  else Itv 0 (Z.max (- lo I) (hi I)).

Definition sqrt (I : interval) : interval :=
  Itv (Z.sqrt (Z.max 0 (lo I) * scale)) (Z.sqrt (Z.max 0 (hi I) * scale) + 1).

Definition clamp01 (I : interval) : interval :=
  Itv (Z.min (Z.max (lo I) 0) scale) (Z.min (Z.max (hi I) 0) scale).

Definition fract (I : interval) : interval :=
  let k := lo I / scale in
  if hi I <? (k + 1) * scale
  then Itv (lo I - k * scale) (hi I - k * scale)
  else Itv 0 scale.

(** The nested partial sums on intervals. *)
Fixpoint nest_sin (U : interval) (k m : nat) : interval :=
  match m with
  | O => of_Z 1
  | S m' =>
      sub (of_Z 1)
        (divZ (mul U (nest_sin U (S k) m'))
              ((2 * Z.of_nat k + 2) * (2 * Z.of_nat k + 3)))
  end.

Fixpoint nest_cos (U : interval) (k m : nat) : interval :=
  match m with
  | O => of_Z 1
  | S m' =>
      sub (of_Z 1)
        (divZ (mul U (nest_cos U (S k) m'))
              ((2 * Z.of_nat k + 1) * (2 * Z.of_nat k + 2)))
  end.

Definition small (X : interval) : bool :=
  (- scale <=? lo X) && (hi X <=? scale).

Definition taylor_sin (X : interval) : interval :=
  let U := mul X X in
  mul X (Itv (lo (nest_sin U 0 7)) (hi (nest_sin U 0 8))).

Definition taylor_cos (X : interval) : interval :=
  let U := mul X X in
  Itv (lo (nest_cos U 0 7)) (hi (nest_cos U 0 8)).

Definition unit_ball : interval := Itv (- scale) scale.

(** Sine and cosine together: the series on [[-1,1]], and the
    double-angle formulas above it, at most [fuel] times. *)
Fixpoint sincos (fuel : nat) (X : interval) : interval * interval :=
  if small X then (taylor_sin X, taylor_cos X)
  else
    match fuel with
    | O => (unit_ball, unit_ball)
    | S fuel' =>
        let (s, c) := sincos fuel' (divZ X 2) in
        (mul (of_Z 2) (mul s c), sub (of_Z 1) (mul (of_Z 2) (mul s s)))
    end.

Definition sin (X : interval) : interval := fst (sincos 8 X).
Definition cos (X : interval) : interval := snd (sincos 8 X).

(** [smoothstep(0.0, 0.1, x)]: the quotient by [0.1 - 0.0] is a product
    with ten. *)
Definition smoothstep_0_01 (X : interval) : interval :=
  let T := clamp01 (mul X (of_Z 10)) in
  mul (mul T T) (sub (of_Z 3) (mul (of_Z 2) T)).

(** Vectors of intervals and the program on them, line by line. *)
Record ivec2 : Type := IVec2 { ix : interval; iy : interval }.
Record ivec3 : Type := IVec3 { ir : interval; ig : interval; ib : interval }.

Definition contains2 (P : ivec2) (p : vec2) : Prop :=
  contains (ix P) (vx p) /\ contains (iy P) (vy p).

Definition contains3 (C : ivec3) (c : vec3) : Prop :=
  contains (ir C) (cr c) /\ contains (ig C) (cg c) /\ contains (ib C) (cb c).

Definition dot (A B : ivec2) : interval :=
  add (mul (ix A) (ix B)) (mul (iy A) (iy B)).

Definition length (P : ivec2) : interval := sqrt (dot P P).

Definition scale2 (P : ivec2) (K : interval) : ivec2 :=
  IVec2 (mul (ix P) K) (mul (iy P) K).

Definition index (i : nat) : interval := of_Z (Z.of_nat i).

Definition rotate_scale (i : nat) (T : interval) (UV : ivec2) : ivec2 :=
  let A := mul (mul T (const 1 10)) (add (index i) (of_Z 1)) in
  let C := cos A in
  let S := sin A in
  let P := IVec2 (dot UV (IVec2 C (opp S))) (dot UV (IVec2 S C)) in
  scale2 P (add (of_Z 1) (mul (index i) (const 3 10))).

Definition wave (i : nat) (T : interval) (P : ivec2) : ivec2 :=
  let X := add (ix P)
    (mul (sin (add (mul (iy P) (of_Z 3))
                   (mul T (add (of_Z 1) (mul (index i) (const 5 10))))))
         (const 3 10)) in
  let Y := add (iy P)
    (mul (cos (add (mul X (of_Z 2))
                   (mul T (add (const 12 10) (mul (index i) (const 3 10))))))
         (const 2 10)) in
  IVec2 X Y.

Definition tile (P : ivec2) : ivec2 :=
  IVec2 (sub (fract (mul (ix P) (const 15 10))) (const 5 10))
        (sub (fract (mul (iy P) (const 15 10))) (const 5 10)).

Definition band (i : nat) (T : interval) (P : ivec2) : interval :=
  let D := sub (length P) (sub (const 2 10) (mul (index i) (const 5 100))) in
  let D := divZ (abs (sin (add (mul D (of_Z 8)) (mul T (of_Z 2))))) 8 in
  let D := smoothstep_0_01 D in
  sub (of_Z 1) D.

Definition pattern (i : nat) (T : interval) (UV : ivec2) : interval :=
  band i T (tile (wave i T (rotate_scale i T UV))).

(** The blend and the vignette, on the channels written out. *)
Definition channel (base w0 w1 w2 : interval) (N D0 D1 D2 F : interval) : interval :=
  mul (add (add base N)
         (mul (const 8 10) (add (add (mul w0 D0) (mul w1 D1)) (mul w2 D2)))) F.

Definition noise (UV : ivec2) : interval :=
  fract (mul (sin (dot UV (IVec2 (const 129898 10000) (const 78233 1000))))
             (const 437585453 10000)).

Definition vignette_factor (UV : ivec2) : interval :=
  add (const 7 10)
    (mul (const 3 10) (sub (of_Z 1) (length (scale2 UV (const 5 10))))).

Definition shade (UV : ivec2) (T : interval) : ivec3 :=
  let D0 := pattern 0 T UV in
  let D1 := pattern 1 T UV in
  let D2 := pattern 2 T UV in
  let N := mul (noise UV) (const 2 100) in
  let F := vignette_factor UV in
  IVec3
    (channel (const 8 100) (const 9 100) (const 125 1000) (const 8 100) N D0 D1 D2 F)
    (channel (const 12 100) (const 15 100) (const 75 1000) (const 12 100) N D0 D1 D2 F)
    (channel (const 18 100) (const 24 100) (const 175 1000) (const 10 100) N D0 D1 D2 F).

(** A point with rational coordinates [x/d] and [y/d]. *)
Definition point (x y d : Z) : ivec2 := IVec2 (const x d) (const y d).

(** Strict order between two intervals, decided on the endpoints. *)
Definition below (I J : interval) : bool := hi I <? lo J.

Definition below3 (C D : ivec3) : bool :=
  below (ir C) (ir D) && below (ig C) (ig D) && below (ib C) (ib D).

(** An interval lies between two bounds given in units of [1/scale]. *)
Definition inside (I : interval) (a b : Z) : bool := (a <=? lo I) && (hi I <=? b).

Definition inside3 (C : ivec3) (r1 r2 g1 g2 b1 b2 : Z) : bool :=
  inside (ir C) r1 r2 && inside (ig C) g1 g2 && inside (ib C) b1 b2.

End Interval.

(** ** Notions used in the statements *)

(** The unit square of normalised coordinates, [-1,1]^2. *)
Definition in_square (uv : vec2) : Prop :=
  -1 <= vx uv <= 1 /\ -1 <= vy uv <= 1.

(** The brightness of a colour: the sum of its channels. *)
Definition brightness (c : vec3) : R := cr c + cg c + cb c.

(** ** The vertex program

    [vUv = uv; gl_Position = projectionMatrix * modelViewMatrix *
    vec4(position, 1.2);].  The two matrices are supplied by the renderer;
    the program is a function of them. *)

Module VertexShader.

Record vec3 : Type := Vec3 { px : R; py : R; pz : R }.
Record vec4 : Type := Vec4 { hx : R; hy : R; hz : R; hw : R }.

(** A 4x4 matrix, by columns. *)
Record mat4 : Type := Mat4 { c0 : vec4; c1 : vec4; c2 : vec4; c3 : vec4 }.

Definition vec4_scale (k : R) (v : vec4) : vec4 :=
  Vec4 (k * hx v) (k * hy v) (k * hz v) (k * hw v).

Definition vec4_add (a b : vec4) : vec4 :=
  Vec4 (hx a + hx b) (hy a + hy b) (hz a + hz b) (hw a + hw b).

(** Matrix times column vector: the combination of the columns. *)
Definition mat4_mul_vec4 (m : mat4) (v : vec4) : vec4 :=
  vec4_add (vec4_add (vec4_add (vec4_scale (hx v) (c0 m)) (vec4_scale (hy v) (c1 m)))
                     (vec4_scale (hz v) (c2 m)))
           (vec4_scale (hw v) (c3 m)).

(** Matrix times matrix: the left factor applied to each column. *)
Definition mat4_mul (a b : mat4) : mat4 :=
  Mat4 (mat4_mul_vec4 a (c0 b)) (mat4_mul_vec4 a (c1 b))
       (mat4_mul_vec4 a (c2 b)) (mat4_mul_vec4 a (c3 b)).

Record outputs : Type := Outputs { vUv : vec2; gl_Position : vec4 }.

Definition main (projectionMatrix modelViewMatrix : mat4)
    (position : vec3) (uv : vec2) : outputs :=
  Outputs uv
    (mat4_mul_vec4 (mat4_mul projectionMatrix modelViewMatrix)
       (Vec4 (px position) (py position) (pz position) 1.2)).

End VertexShader.

(** ** The copy button

    [handleCopyEmail] writes the address to the clipboard through the
    asynchronous clipboard interface when the browser has it, and otherwise,
    or when that write is rejected, through [fallbackCopy]: a temporary
    text area is appended to the body, selected, copied with
    [document.execCommand("copy")] and removed again.  The page is a record
    of what the handler can change; the browser is a record of how it
    answers the calls the handler makes. *)

From Stdlib Require String.

Module Clipboard.

Import String.
Local Open Scope string_scope.

Inductive toast : Type :=
| ToastSuccess (message : string)
| ToastError (message : string).

(** A child of the body; the key stands for the identity of the object. *)
Record node : Type := Node { key : nat; value : string }.

Inductive promise : Type := Resolves | Rejects.

Inductive outcome : Type :=
| Returns (ok : bool)           (* [execCommand] returns its success flag *)
| Throws (err : string).        (* [execCommand] raises an exception *)

Record browser : Type := Browser {
  has_clipboard : bool;         (* [navigator.clipboard] is truthy *)
  has_writeText : bool;         (* [navigator.clipboard.writeText] is truthy *)
  writeText : promise;          (* what the promise of [writeText] does *)
  execCommand : outcome         (* what [document.execCommand("copy")] does *)
}.

Record page : Type := Page {
  body : list node;             (* the children of [document.body] *)
  selection : option string;    (* the selected text *)
  clipboard : string;           (* the content of the system clipboard *)
  toasts : list toast;          (* the notifications shown, oldest first *)
  console : list string         (* what [console.error] has logged *)
}.

Definition email : string := "nicolaspavlotsky@gmail.com".

(** A key that no child of the body carries. *)
Definition fresh (l : list node) : nat := S (list_max (map key l)).

Definition appendChild (n : node) (p : page) : page :=
  Page (body p ++ [n]) (selection p) (clipboard p) (toasts p) (console p).

Definition select (n : node) (p : page) : page :=
  Page (body p) (Some (value n)) (clipboard p) (toasts p) (console p).

Definition removeChild (n : node) (p : page) : page :=
  Page (filter (fun m => negb (Nat.eqb (key m) (key n))) (body p))
       (selection p) (clipboard p) (toasts p) (console p).

(** A successful copy command puts the selection on the clipboard; an
    unsuccessful one leaves the clipboard alone. *)
Definition copy_selection (ok : bool) (p : page) : page :=
  match ok, selection p with
  | true, Some s => Page (body p) (selection p) s (toasts p) (console p)
  | _, _ => p
  end.

Definition set_clipboard (s : string) (p : page) : page :=
  Page (body p) (selection p) s (toasts p) (console p).

Definition toast_success (m : string) (p : page) : page :=
  Page (body p) (selection p) (clipboard p) (toasts p ++ [ToastSuccess m]) (console p).

Definition toast_error (m : string) (p : page) : page :=
  Page (body p) (selection p) (clipboard p) (toasts p ++ [ToastError m]) (console p).

Definition console_error (e : string) (p : page) : page :=
  Page (body p) (selection p) (clipboard p) (toasts p) (console p ++ [e]).

Definition fallbackCopy (b : browser) (text : string) (p : page) : page :=
  let textarea := Node (fresh (body p)) text in
  let p := appendChild textarea p in
  let p := select textarea p in
  let p :=
    match execCommand b with
    | Returns ok => toast_success "Email copied to clipboard" (copy_selection ok p)
    | Throws err => console_error err (toast_error "Failed to copy email" p)
    end in
  removeChild textarea p.

Definition handleCopyEmail (b : browser) (p : page) : page :=
  if has_clipboard b && has_writeText b then
    match writeText b with
    | Resolves => toast_success "Email copied to clipboard" (set_clipboard email p)
    | Rejects => fallbackCopy b email p
    end
  else fallbackCopy b email p.

(** The handler takes the fallback path: the clipboard interface is
    missing or its write is rejected. *)
Definition uses_fallback (b : browser) : bool :=
  negb (has_clipboard b && has_writeText b) ||
  match writeText b with
  | Resolves => false
  | Rejects => true
  end.

(** Whether a notification reports success. *)
Definition is_success (t : toast) : bool :=
  match t with
  | ToastSuccess _ => true
  | ToastError _ => false
  end.

End Clipboard.

(** ** Notions about runs of the host component *)

(** The clock value of the latest frame callback among the events. *)
Fixpoint last_frame (es : list Host.event) : option R :=
  match es with
  | [] => None
  | e :: es' =>
      match last_frame es' with
      | Some t => Some t
      | None =>
          match e with
          | Host.Frame t => Some t
          | _ => None
          end
      end
  end.

(** The component has been rendered: the memo cell is filled and the mesh
    is mounted. *)
Definition mounted (s : Host.state) : Prop :=
  Host.memo s <> None /\ Host.meshRef s <> None.

(** The unit square of texture coordinates, [0,1]^2. *)
Definition in_texture (vUv : vec2) : Prop :=
  0 <= vx vUv <= 1 /\ 0 <= vy vUv <= 1.

(** The clock value the picture shows after the events: that of the latest
    frame callback, and zero while there has been none. *)
Definition shown_time (es : list Host.event) : R :=
  match last_frame es with
  | Some t => t
  | None => 0
  end.

Definition is_render (e : Host.event) : bool :=
  match e with
  | Host.Render => true
  | _ => false
  end.

(** ** Elementary facts about the built-in functions *)

Section Builtins.

Lemma fract_frac_part (x : R) : fract x = frac_part x.
Proof. reflexivity. Qed.

Lemma fract_range (x : R) : 0 <= fract x < 1.
Proof.
  rewrite fract_frac_part. destruct (base_fp x) as [H0 H1]. lra.
Qed.

Lemma Int_part_succ (x : R) : Int_part (x + 1) = (Int_part x + 1)%Z.
Proof.
  symmetry. apply Int_part_spec.
  destruct (base_Int_part x) as [Hle Hgt].
  rewrite plus_IZR. lra.
Qed.

Lemma fract_succ (x : R) : fract (x + 1) = fract x.
Proof.
  unfold fract. rewrite Int_part_succ, plus_IZR. lra.
Qed.

Lemma fract_small (x : R) : 0 <= x < 1 -> fract x = x.
Proof.
  intros Hx. unfold fract.
  replace (Int_part x) with 0%Z; [simpl; lra|].
  apply Int_part_spec. simpl. lra.
Qed.

Lemma fract_0 : fract 0 = 0.
Proof. apply fract_small. lra. Qed.

Lemma clamp_range (x lo hi : R) : lo <= hi -> lo <= clamp x lo hi <= hi.
Proof.
  intros Hle. unfold clamp, Rmin, Rmax.
  destruct (Rle_dec x lo); destruct (Rle_dec _ hi); lra.
Qed.

Lemma smoothstep_range (e0 e1 x : R) : 0 <= smoothstep e0 e1 x <= 1.
Proof.
  unfold smoothstep.
  assert (Ht : 0 <= clamp ((x - e0) / (e1 - e0)) 0 1 <= 1)
    by (apply clamp_range; lra).
  set (t := clamp _ 0 1) in *. cbv zeta.
  assert (H1 : 0 <= t * t * (3 - 2 * t)) by (apply Rmult_le_pos; nra).
  assert (H2 : 0 <= (1 - t) * (1 - t) * (1 + 2 * t)) by (apply Rmult_le_pos; nra).
  lra.
Qed.

Lemma dot_self_nonneg (p : vec2) : 0 <= dot p p.
Proof. unfold dot. nra. Qed.

Lemma length_nonneg (p : vec2) : 0 <= length p.
Proof. apply sqrt_pos. Qed.

Lemma band_range (i : nat) (time : R) (p : vec2) : 0 <= band i time p <= 1.
Proof.
  unfold band. cbv zeta.
  pose proof (smoothstep_range 0 0.1
    (Rabs (sin (sdCircle p (0.2 - INR i * 0.05) * 8 + time * 2)) / 8)). lra.
Qed.

Lemma pattern_range (i : nat) (time : R) (p : vec2) : 0 <= pattern i time p <= 1.
Proof. apply band_range. Qed.

Lemma noise_range (uv : vec2) : 0 <= noise uv < 1.
Proof. apply fract_range. Qed.

End Builtins.

Section Vignette.

Lemma length_half (uv : vec2) : length (vec2_scale uv 0.5) = length uv / 2.
Proof.
  unfold length.
  replace (dot (vec2_scale uv 0.5) (vec2_scale uv 0.5)) with (dot uv uv * (/ 2)²).
  - rewrite sqrt_mult_alt by apply dot_self_nonneg.
    rewrite sqrt_Rsqr by lra. lra.
  - unfold dot, vec2_scale, Rsqr. simpl. lra.
Qed.

Lemma vignette_factor_closed (uv : vec2) :
  vignette_factor uv = 1 - 0.15 * length uv.
Proof.
  unfold vignette_factor, vignette. rewrite length_half. lra.
Qed.

Lemma length_square_bound (uv : vec2) : in_square uv -> length uv <= sqrt 2.
Proof.
  intros [Hx Hy]. unfold length. apply sqrt_le_1_alt. unfold dot. nra.
Qed.

Lemma sqrt2_lt_3_2 : sqrt 2 < 3 / 2.
Proof.
  replace (3 / 2) with (sqrt ((3 / 2) * (3 / 2))) by (apply sqrt_square; lra).
  apply sqrt_lt_1_alt. lra.
Qed.

Lemma vignette_factor_range (uv : vec2) :
  in_square uv -> 0.775 < vignette_factor uv <= 1.
Proof.
  intros Hsq. rewrite vignette_factor_closed.
  pose proof (length_square_bound uv Hsq).
  pose proof (length_nonneg uv). pose proof sqrt2_lt_3_2. lra.
Qed.

End Vignette.

(** The colour accumulated by the loop, written out. *)
Lemma layers_unfold (uv : vec2) (time : R) :
  fold_left (layer time uv) layers (vec3_splat 0) =
  vec3_add (vec3_add (vec3_add (vec3_splat 0)
    (contribution 0 (pattern 0 time (wave 0 time (rotate_scale 0 time uv)))))
    (contribution 1 (pattern 1 time (wave 1 time (rotate_scale 1 time uv)))))
    (contribution 2 (pattern 2 time (wave 2 time (rotate_scale 2 time uv)))).
Proof. reflexivity. Qed.

(** The channels of the colour before the vignette, written out. *)
Lemma unvignetted_channels (uv : vec2) (time : R) :
  let d0 := pattern 0 time (wave 0 time (rotate_scale 0 time uv)) in
  let d1 := pattern 1 time (wave 1 time (rotate_scale 1 time uv)) in
  let d2 := pattern 2 time (wave 2 time (rotate_scale 2 time uv)) in
  let n := noise uv * 0.02 in
  cr (unvignetted uv time) = 0.08 + n + 0.8 * (0.09 * d0 + 0.125 * d1 + 0.08 * d2) /\
  cg (unvignetted uv time) = 0.12 + n + 0.8 * (0.15 * d0 + 0.075 * d1 + 0.12 * d2) /\
  cb (unvignetted uv time) = 0.18 + n + 0.8 * (0.24 * d0 + 0.175 * d1 + 0.1 * d2).
Proof.
  cbv zeta. unfold unvignetted. cbv zeta. rewrite layers_unfold.
  unfold background, vec3_mix, mix, vec3_add, vec3_add_scalar, contribution,
    vec3_scale, vec3_splat, layerColor, base_background.
  cbn [cr cg cb INR]. repeat split; lra.
Qed.


(** ** Soundness of the interval operations *)

Module IntervalSound.

Import Interval.

Lemma scale_pos : 0 < IZR scale.
Proof. apply IZR_lt. reflexivity. Qed.

Lemma contains_eq (I : interval) (x y : R) : contains I x -> x = y -> contains I y.
Proof. intros H <-. exact H. Qed.

Lemma contains_bounds (I J : interval) (x y : R) :
  contains I x -> contains J y -> below I J = true -> x < y.
Proof.
  unfold contains, below. intros [_ Hx] [Hy _] Hlt.
  apply Z.ltb_lt, IZR_lt in Hlt. pose proof scale_pos. nra.
Qed.

(** Rounded division of integers, seen in the reals. *)
Lemma fdiv_le (a b : Z) : (0 < b)%Z -> IZR (a / b) * IZR b <= IZR a.
Proof.
  intros Hb. rewrite <- mult_IZR. apply IZR_le.
  rewrite Z.mul_comm. apply Z.mul_div_le. exact Hb.
Qed.

Lemma cdiv_ge (a b : Z) : (0 < b)%Z -> IZR a <= IZR (cdiv a b) * IZR b.
Proof.
  intros Hb. unfold cdiv. rewrite opp_IZR.
  pose proof (fdiv_le (- a) b Hb) as H. rewrite opp_IZR in H. lra.
Qed.

Lemma const_sound (n d : Z) : (0 < d)%Z -> contains (const n d) (IZR n / IZR d).
Proof.
  intros Hd. unfold contains, const. cbn [lo hi].
  pose proof (fdiv_le (n * scale) d Hd) as Hl.
  pose proof (cdiv_ge (n * scale) d Hd) as Hh.
  rewrite mult_IZR in Hl, Hh.
  assert (Hd' : 0 < IZR d) by (apply IZR_lt; exact Hd).
  replace (IZR n / IZR d * IZR scale) with (IZR n * IZR scale / IZR d)
    by (field; lra).
  split.
  - apply Rmult_le_reg_r with (IZR d); [exact Hd'|].
    replace (IZR n * IZR scale / IZR d * IZR d) with (IZR n * IZR scale)
      by (field; lra). exact Hl.
  - apply Rmult_le_reg_r with (IZR d); [exact Hd'|].
    replace (IZR n * IZR scale / IZR d * IZR d) with (IZR n * IZR scale)
      by (field; lra). exact Hh.
Qed.

Lemma of_Z_sound (n : Z) : contains (of_Z n) (IZR n).
Proof.
  apply contains_eq with (IZR n / IZR 1); [apply const_sound; reflexivity | field].
Qed.

Lemma add_sound (I J : interval) (x y : R) :
  contains I x -> contains J y -> contains (add I J) (x + y).
Proof.
  unfold contains, add. cbn [lo hi]. rewrite !plus_IZR. intros Hx Hy. lra.
Qed.

Lemma opp_sound (I : interval) (x : R) : contains I x -> contains (opp I) (- x).
Proof.
  unfold contains, opp. cbn [lo hi]. rewrite !opp_IZR. intros Hx. lra.
Qed.

Lemma sub_sound (I J : interval) (x y : R) :
  contains I x -> contains J y -> contains (sub I J) (x - y).
Proof.
  intros Hx Hy. unfold sub. apply add_sound; [exact Hx | apply opp_sound, Hy].
Qed.

(** A product of two reals in a box lies between the extreme products of
    the corners. *)
Lemma corner_lower (a b c d x y : R) :
  a <= x <= b -> c <= y <= d ->
  a * c <= x * y \/ a * d <= x * y \/ b * c <= x * y \/ b * d <= x * y.
Proof.
  intros Hx Hy.
  destruct (Rle_dec 0 y) as [Hy0 | Hy0].
  - assert (H1 : a * y <= x * y) by nra.
    destruct (Rle_dec 0 a) as [Ha | Ha].
    + left. assert (a * c <= a * y) by nra. lra.
    + right; left. assert (a * d <= a * y) by nra. lra.
  - assert (H1 : b * y <= x * y) by nra.
    destruct (Rle_dec 0 b) as [Hb | Hb].
    + right; right; left. assert (b * c <= b * y) by nra. lra.
    + right; right; right. assert (b * d <= b * y) by nra. lra.
Qed.

Lemma corner_upper (a b c d x y : R) :
  a <= x <= b -> c <= y <= d ->
  x * y <= a * c \/ x * y <= a * d \/ x * y <= b * c \/ x * y <= b * d.
Proof.
  intros Hx Hy.
  assert (Hy' : - d <= - y <= - c) by lra.
  destruct (corner_lower a b (- d) (- c) x (- y) Hx Hy') as [H | [H | [H | H]]].
  - right; left. lra.
  - left. lra.
  - right; right; right. lra.
  - right; right; left. lra.
Qed.

Lemma min4_le (a b c d : Z) :
  (min4 a b c d <= a /\ min4 a b c d <= b /\ min4 a b c d <= c /\ min4 a b c d <= d)%Z.
Proof. unfold min4. lia. Qed.

Lemma max4_ge (a b c d : Z) :
  (a <= max4 a b c d /\ b <= max4 a b c d /\ c <= max4 a b c d /\ d <= max4 a b c d)%Z.
Proof. unfold max4. lia. Qed.

Lemma mul_sound (I J : interval) (x y : R) :
  contains I x -> contains J y -> contains (mul I J) (x * y).
Proof.
  unfold contains, mul. cbn [lo hi]. intros Hx Hy.
  set (a := (lo I * lo J)%Z). set (b := (lo I * hi J)%Z).
  set (c := (hi I * lo J)%Z). set (d := (hi I * hi J)%Z).
  pose proof scale_pos as Hs.
  assert (Hsz : (0 < scale)%Z) by reflexivity.
  pose proof (fdiv_le (min4 a b c d) scale Hsz) as Hl.
  pose proof (cdiv_ge (max4 a b c d) scale Hsz) as Hh.
  destruct (min4_le a b c d) as (Ha & Hb & Hc & Hd).
  destruct (max4_ge a b c d) as (Ha' & Hb' & Hc' & Hd').
  apply IZR_le in Ha, Hb, Hc, Hd, Ha', Hb', Hc', Hd'.
  unfold a, b, c, d in Ha, Hb, Hc, Hd, Ha', Hb', Hc', Hd'.
  rewrite mult_IZR in Ha, Hb, Hc, Hd, Ha', Hb', Hc', Hd'.
  fold a b c d in Ha, Hb, Hc, Hd, Ha', Hb', Hc', Hd'.
  set (m := IZR (min4 a b c d)) in *. set (M := IZR (max4 a b c d)) in *.
  assert (Hlow : m <= (x * IZR scale) * (y * IZR scale)).
  { destruct (corner_lower _ _ _ _ _ _ Hx Hy) as [H | [H | [H | H]]]; lra. }
  assert (Hupp : (x * IZR scale) * (y * IZR scale) <= M).
  { destruct (corner_upper _ _ _ _ _ _ Hx Hy) as [H | [H | [H | H]]]; lra. }
  split; apply Rmult_le_reg_r with (IZR scale); try exact Hs; nra.
Qed.

Lemma divZ_sound (I : interval) (m : Z) (x : R) :
  (0 < m)%Z -> contains I x -> contains (divZ I m) (x / IZR m).
Proof.
  unfold contains, divZ. cbn [lo hi]. intros Hm Hx.
  pose proof (fdiv_le (lo I) m Hm) as Hl.
  pose proof (cdiv_ge (hi I) m Hm) as Hh.
  assert (Hm' : 0 < IZR m) by (apply IZR_lt; exact Hm).
  replace (x / IZR m * IZR scale) with (x * IZR scale / IZR m) by (field; lra).
  split; apply Rmult_le_reg_r with (IZR m); try exact Hm';
    replace (x * IZR scale / IZR m * IZR m) with (x * IZR scale) by (field; lra);
    lra.
Qed.

Lemma abs_sound (I : interval) (x : R) : contains I x -> contains (abs I) (Rabs x).
Proof.
  unfold abs. intros Hx. pose proof scale_pos as Hs.
  destruct (Z.leb_spec 0 (lo I)) as [Hlo | Hlo].
  - apply IZR_le in Hlo. unfold contains in *.
    rewrite Rabs_right; [exact Hx | nra].
  - destruct (Z.leb_spec (hi I) 0) as [Hhi | Hhi].
    + apply IZR_le in Hhi. unfold contains in Hx.
      rewrite Rabs_left1 by nra. apply opp_sound. exact Hx.
    + unfold contains in *. cbn [lo hi].
      assert (H1 : IZR (- lo I) <= IZR (Z.max (- lo I) (hi I))) by (apply IZR_le; lia).
      assert (H2 : IZR (hi I) <= IZR (Z.max (- lo I) (hi I))) by (apply IZR_le; lia).
      rewrite opp_IZR in H1.
      pose proof (Rabs_pos x). unfold Rabs. destruct (Rcase_abs x); nra.
Qed.

Lemma clamp01_cases (y : R) :
  (y <= 0 /\ clamp y 0 1 = 0) \/
  (0 <= y <= 1 /\ clamp y 0 1 = y) \/
  (1 <= y /\ clamp y 0 1 = 1).
Proof.
  unfold clamp, Rmin, Rmax.
  destruct (Rle_dec y 0); destruct (Rle_dec _ 1);
    first [left; lra | right; left; lra | right; right; lra].
Qed.

Lemma Zclamp_cases (a : Z) :
  let r := Z.min (Z.max a 0) scale in
  (a <= 0 /\ r = 0)%Z \/ (0 <= a <= scale /\ r = a)%Z \/ (scale <= a /\ r = scale)%Z.
Proof. cbv zeta. unfold scale. lia. Qed.

Lemma clamp01_sound (I : interval) (x : R) :
  contains I x -> contains (clamp01 I) (clamp x 0 1).
Proof.
  unfold contains, clamp01. cbn [lo hi]. intros [Hl Hh].
  pose proof scale_pos as Hs.
  split.
  - destruct (Zclamp_cases (lo I)) as [[Ha ->] | [[[Ha Ha'] ->] | [Ha ->]]];
      apply IZR_le in Ha; try apply IZR_le in Ha';
      destruct (clamp01_cases x) as [[Hy ->] | [[Hy ->] | [Hy ->]]]; nra.
  - destruct (Zclamp_cases (hi I)) as [[Ha ->] | [[[Ha Ha'] ->] | [Ha ->]]];
      apply IZR_le in Ha; try apply IZR_le in Ha';
      destruct (clamp01_cases x) as [[Hy ->] | [[Hy ->] | [Hy ->]]]; nra.
Qed.

End IntervalSound.

(** ** The sine and cosine series in nested form *)

Section Series.

Lemma IZR_of_nat_even (k : nat) (c : Z) :
  IZR (2 * Z.of_nat k + c) = 2 * INR k + IZR c.
Proof. rewrite plus_IZR, mult_IZR, <- INR_IZR_INZ. reflexivity. Qed.

Lemma sin_term_succ (x : R) (k : nat) :
  sin_term x (S k) =
  - (sin_term x k * (x * x) / IZR ((2 * Z.of_nat k + 2) * (2 * Z.of_nat k + 3))).
Proof.
  unfold sin_term.
  replace (2 * S k + 1)%nat with (S (S (2 * k + 1))) by lia.
  rewrite !fact_simpl, !mult_INR, <- !tech_pow_Rmult.
  rewrite mult_IZR, !IZR_of_nat_even.
  set (m := (2 * k + 1)%nat).
  assert (Hm : INR m = 2 * INR k + 1).
  { unfold m. rewrite plus_INR, mult_INR. simpl. lra. }
  rewrite !S_INR, Hm.
  pose proof (INR_fact_neq_0 m) as Hf. pose proof (pos_INR k) as Hk.
  field. repeat split; first [exact Hf | lra].
Qed.

Lemma cos_term_succ (x : R) (k : nat) :
  cos_term x (S k) =
  - (cos_term x k * (x * x) / IZR ((2 * Z.of_nat k + 1) * (2 * Z.of_nat k + 2))).
Proof.
  unfold cos_term.
  replace (2 * S k)%nat with (S (S (2 * k))) by lia.
  rewrite !fact_simpl, !mult_INR, <- !tech_pow_Rmult.
  rewrite mult_IZR, !IZR_of_nat_even.
  set (m := (2 * k)%nat).
  assert (Hm : INR m = 2 * INR k).
  { unfold m. rewrite mult_INR. simpl. lra. }
  rewrite !S_INR, Hm.
  pose proof (INR_fact_neq_0 m) as Hf. pose proof (pos_INR k) as Hk.
  field. repeat split; first [exact Hf | lra].
Qed.

Lemma sum_shift (f : nat -> R) (m : nat) :
  sum_f_R0 f (S m) = f 0%nat + sum_f_R0 (fun j => f (S j)) m.
Proof.
  rewrite (decomp_sum f (S m)) by lia. reflexivity.
Qed.

Lemma sin_tail (x : R) (m k : nat) :
  sum_f_R0 (fun j => sin_term x (k + j)) m = sin_term x k * series_sin (x * x) k m.
Proof.
  revert k. induction m as [| m IH]; intros k.
  - cbn [sum_f_R0 series_sin]. rewrite Nat.add_0_r. lra.
  - rewrite sum_shift, Nat.add_0_r.
    rewrite (sum_eq _ (fun j => sin_term x (S k + j)) m)
      by (intros j _; f_equal; lia).
    rewrite IH, sin_term_succ. cbn [series_sin]. unfold Rdiv. ring.
Qed.

Lemma cos_tail (x : R) (m k : nat) :
  sum_f_R0 (fun j => cos_term x (k + j)) m = cos_term x k * series_cos (x * x) k m.
Proof.
  revert k. induction m as [| m IH]; intros k.
  - cbn [sum_f_R0 series_cos]. rewrite Nat.add_0_r. lra.
  - rewrite sum_shift, Nat.add_0_r.
    rewrite (sum_eq _ (fun j => cos_term x (S k + j)) m)
      by (intros j _; f_equal; lia).
    rewrite IH, cos_term_succ. cbn [series_cos]. unfold Rdiv. ring.
Qed.

Lemma sin_approx_nested (x : R) (n : nat) :
  sin_approx x n = x * series_sin (x * x) 0 n.
Proof.
  unfold sin_approx.
  rewrite (sum_eq _ (fun j => sin_term x (0 + j)) n) by reflexivity.
  rewrite sin_tail. unfold sin_term. simpl. field.
Qed.

Lemma cos_approx_nested (x : R) (n : nat) :
  cos_approx x n = series_cos (x * x) 0 n.
Proof.
  unfold cos_approx.
  rewrite (sum_eq _ (fun j => cos_term x (0 + j)) n) by reflexivity.
  rewrite cos_tail. unfold cos_term. simpl. field.
Qed.

Lemma series_sin_0 (k m : nat) : series_sin 0 k m = 1.
Proof. destruct m; cbn [series_sin]; unfold Rdiv; ring. Qed.

Lemma PI_gt_3 : 3 < PI.
Proof. pose proof PI2_3_2. lra. Qed.

(** On [[-1,1]] the sine is the argument times a factor that two
    consecutive partial sums enclose. *)
Lemma sin_factor (x : R) :
  -1 <= x <= 1 ->
  exists g, sin x = x * g /\
            series_sin (x * x) 0 7 <= g <= series_sin (x * x) 0 8.
Proof.
  intros Hx. pose proof PI_gt_3 as Hpi.
  assert (Hpos : forall y, 0 < y <= 1 ->
    series_sin (y * y) 0 7 <= sin y / y <= series_sin (y * y) 0 8).
  { intros y Hy.
    destruct (sin_bound y 3 ltac:(lra) ltac:(lra)) as [Hl Hu].
    change (2 * 3 + 1)%nat with 7%nat in Hl.
    change (2 * (3 + 1))%nat with 8%nat in Hu.
    rewrite sin_approx_nested in Hl, Hu.
    split.
    - apply Rmult_le_reg_l with y; [lra|].
      replace (y * (sin y / y)) with (sin y) by (field; lra). exact Hl.
    - apply Rmult_le_reg_l with y; [lra|].
      replace (y * (sin y / y)) with (sin y) by (field; lra). exact Hu. }
  destruct (Rtotal_order x 0) as [Hneg | [H0 | Hgt]].
  - exists (sin (- x) / (- x)). split.
    + rewrite sin_neg. field. lra.
    + replace (x * x) with (- x * - x) by ring. apply Hpos. lra.
  - exists 1. subst x. rewrite sin_0, !Rmult_0_l, !series_sin_0. lra.
  - exists (sin x / x). split; [field; lra | apply Hpos; lra].
Qed.

Lemma cos_enclosure (x : R) :
  -1 <= x <= 1 ->
  series_cos (x * x) 0 7 <= cos x <= series_cos (x * x) 0 8.
Proof.
  intros Hx. pose proof PI_gt_3 as Hpi.
  destruct (cos_bound x 3 ltac:(lra) ltac:(lra)) as [Hl Hu].
  change (2 * 3 + 1)%nat with 7%nat in Hl.
  change (2 * (3 + 1))%nat with 8%nat in Hu.
  rewrite cos_approx_nested in Hl, Hu. lra.
Qed.

End Series.

(** ** Soundness of the interval functions *)

Section IntervalFunctions.

Import IntervalSound.

Lemma sqrt_sound (I : Interval.interval) (x : R) :
  Interval.contains I x -> Interval.contains (Interval.sqrt I) (sqrt x).
Proof.
  unfold Interval.contains, Interval.sqrt. cbn [Interval.lo Interval.hi].
  intros [Hl Hh]. pose proof scale_pos as Hs.
  set (s := IZR Interval.scale) in *.
  assert (Hsz : (0 < Interval.scale)%Z) by reflexivity.
  pose proof (sqrt_pos x) as Hr.
  split.
  - set (L := Z.max 0 (Interval.lo I)).
    assert (HL : (0 <= L * Interval.scale)%Z) by (unfold L; lia).
    destruct (Z.sqrt_spec _ HL) as [Hsq _].
    pose proof (Z.sqrt_nonneg (L * Interval.scale)) as Hn.
    set (r := Z.sqrt (L * Interval.scale)) in *.
    apply IZR_le in Hsq, Hn. rewrite !mult_IZR in Hsq. fold s in Hsq.
    destruct (Rlt_dec x 0) as [Hx | Hx].
    + assert (HL0 : L = 0%Z).
      { unfold L. apply Z.max_l. apply le_IZR. nra. }
      assert (Hr0 : r = 0%Z) by (unfold r; rewrite HL0; reflexivity).
      rewrite Hr0. nra.
    + assert (HLx : IZR L <= x * s).
      { unfold L. destruct (Z.max_spec 0 (Interval.lo I)) as [[_ ->] | [_ ->]]; nra. }
      assert (Hxx : sqrt x * sqrt x = x) by (apply sqrt_sqrt; lra).
      assert (Hsq2 : (IZR r)² <= (sqrt x * s)²) by (unfold Rsqr; nra).
      apply Rsqr_incr_0_var; [exact Hsq2 | nra].
  - set (H := Z.max 0 (Interval.hi I)).
    assert (HH : (0 <= H * Interval.scale)%Z) by (unfold H; lia).
    destruct (Z.sqrt_spec _ HH) as [_ Hsq].
    pose proof (Z.sqrt_nonneg (H * Interval.scale)) as Hn.
    set (r := Z.sqrt (H * Interval.scale)) in *.
    apply IZR_lt in Hsq. apply IZR_le in Hn.
    rewrite !mult_IZR in Hsq. unfold Z.succ in Hsq. rewrite !plus_IZR in *.
    fold s in Hsq.
    destruct (Rlt_dec x 0) as [Hx | Hx].
    + rewrite sqrt_neg_0 by lra. nra.
    + assert (HHx : x * s <= IZR H).
      { unfold H. destruct (Z.max_spec 0 (Interval.hi I)) as [[Hc ->] | [Hc ->]];
          [lra|]. apply IZR_le in Hc. lra. }
      assert (Hxx : sqrt x * sqrt x = x) by (apply sqrt_sqrt; lra).
      assert (Hsq2 : (sqrt x * s)² < (IZR r + 1)²) by (unfold Rsqr; nra).
      apply Rlt_le, Rsqr_incrst_0; [exact Hsq2 | nra | lra].
Qed.

Lemma fract_sound (I : Interval.interval) (x : R) :
  Interval.contains I x -> Interval.contains (Interval.fract I) (fract x).
Proof.
  unfold Interval.fract. intros Hx. pose proof scale_pos as Hs.
  assert (Hsz : (0 < Interval.scale)%Z) by reflexivity.
  set (k := (Interval.lo I / Interval.scale)%Z).
  destruct (Z.ltb_spec (Interval.hi I) ((k + 1) * Interval.scale)) as [Hlt | Hge].
  - unfold Interval.contains in *. cbn [Interval.lo Interval.hi].
    pose proof (fdiv_le (Interval.lo I) Interval.scale Hsz) as Hk. fold k in Hk.
    apply IZR_lt in Hlt. rewrite mult_IZR, plus_IZR in Hlt.
    rewrite !minus_IZR, mult_IZR.
    assert (Hint : Int_part x = k).
    { symmetry. apply Int_part_spec. split.
      - apply Rmult_lt_reg_r with (IZR Interval.scale); [exact Hs | nra].
      - apply Rmult_le_reg_r with (IZR Interval.scale); [exact Hs | nra]. }
    unfold fract. rewrite Hint. nra.
  - unfold Interval.contains. cbn [Interval.lo Interval.hi].
    pose proof (fract_range x). nra.
Qed.

Lemma nest_sin_sound (U : Interval.interval) (u : R) (m k : nat) :
  Interval.contains U u -> Interval.contains (Interval.nest_sin U k m) (series_sin u k m).
Proof.
  intros HU. revert k. induction m as [| m IH]; intros k;
    cbn [Interval.nest_sin series_sin].
  - apply of_Z_sound.
  - apply sub_sound; [apply of_Z_sound|].
    apply divZ_sound; [lia|]. apply mul_sound; [exact HU | apply IH].
Qed.

Lemma nest_cos_sound (U : Interval.interval) (u : R) (m k : nat) :
  Interval.contains U u -> Interval.contains (Interval.nest_cos U k m) (series_cos u k m).
Proof.
  intros HU. revert k. induction m as [| m IH]; intros k;
    cbn [Interval.nest_cos series_cos].
  - apply of_Z_sound.
  - apply sub_sound; [apply of_Z_sound|].
    apply divZ_sound; [lia|]. apply mul_sound; [exact HU | apply IH].
Qed.

Lemma small_unit (X : Interval.interval) (x : R) :
  Interval.small X = true -> Interval.contains X x -> -1 <= x <= 1.
Proof.
  unfold Interval.small, Interval.contains. intros Hsm [Hl Hh].
  apply andb_true_iff in Hsm. destruct Hsm as [H1 H2].
  apply Z.leb_le, IZR_le in H1. apply Z.leb_le, IZR_le in H2.
  rewrite opp_IZR in H1. pose proof scale_pos. split; nra.
Qed.

(** An interval may be widened on both sides. *)
Lemma between_sound (A B : Interval.interval) (a b g : R) :
  Interval.contains A a -> Interval.contains B b -> a <= g <= b ->
  Interval.contains (Interval.Itv (Interval.lo A) (Interval.hi B)) g.
Proof.
  unfold Interval.contains. cbn [Interval.lo Interval.hi].
  intros [Ha _] [_ Hb] Hg. pose proof scale_pos. split; nra.
Qed.

Lemma taylor_sin_sound (X : Interval.interval) (x : R) :
  Interval.small X = true -> Interval.contains X x -> Interval.contains (Interval.taylor_sin X) (sin x).
Proof.
  intros Hsm HX. unfold Interval.taylor_sin. cbv zeta.
  destruct (sin_factor x (small_unit X x Hsm HX)) as (g & -> & Hg).
  apply mul_sound; [exact HX|].
  apply between_sound with (series_sin (x * x) 0 7) (series_sin (x * x) 0 8).
  - apply nest_sin_sound, mul_sound; exact HX.
  - apply nest_sin_sound, mul_sound; exact HX.
  - exact Hg.
Qed.

Lemma taylor_cos_sound (X : Interval.interval) (x : R) :
  Interval.small X = true -> Interval.contains X x -> Interval.contains (Interval.taylor_cos X) (cos x).
Proof.
  intros Hsm HX. unfold Interval.taylor_cos. cbv zeta.
  apply between_sound with (series_cos (x * x) 0 7) (series_cos (x * x) 0 8).
  - apply nest_cos_sound, mul_sound; exact HX.
  - apply nest_cos_sound, mul_sound; exact HX.
  - apply cos_enclosure, (small_unit X x Hsm HX).
Qed.

Lemma unit_ball_sound (y : R) : -1 <= y <= 1 -> Interval.contains Interval.unit_ball y.
Proof.
  unfold Interval.contains, Interval.unit_ball. cbn [Interval.lo Interval.hi].
  rewrite opp_IZR. pose proof scale_pos. intros Hy. split; nra.
Qed.

Lemma sincos_sound (fuel : nat) (X : Interval.interval) (x : R) :
  Interval.contains X x ->
  Interval.contains (fst (Interval.sincos fuel X)) (sin x) /\
  Interval.contains (snd (Interval.sincos fuel X)) (cos x).
Proof.
  revert X x. induction fuel as [| fuel IH]; intros X x HX; cbn [Interval.sincos];
    destruct (Interval.small X) eqn:Hsm; cbn [fst snd].
  - split; [apply taylor_sin_sound | apply taylor_cos_sound]; assumption.
  - split; apply unit_ball_sound; [apply SIN_bound | apply COS_bound].
  - split; [apply taylor_sin_sound | apply taylor_cos_sound]; assumption.
  - assert (Hhalf : Interval.contains (Interval.divZ X 2) (x / 2))
      by (apply (divZ_sound X 2 x); [reflexivity | exact HX]).
    destruct (IH _ _ Hhalf) as [Hs Hc].
    destruct (Interval.sincos fuel (Interval.divZ X 2)) as [s c]. cbn [fst snd] in *.
    split.
    + apply contains_eq with (2 * (sin (x / 2) * cos (x / 2))).
      * apply mul_sound; [apply of_Z_sound | apply mul_sound; assumption].
      * replace x with (2 * (x / 2)) at 3 by field. rewrite sin_2a. ring.
    + apply contains_eq with (1 - 2 * (sin (x / 2) * sin (x / 2))).
      * apply sub_sound; [apply of_Z_sound|].
        apply mul_sound; [apply of_Z_sound | apply mul_sound; assumption].
      * replace x with (2 * (x / 2)) at 3 by field. rewrite cos_2a_sin. ring.
Qed.

Lemma sin_sound (X : Interval.interval) (x : R) :
  Interval.contains X x -> Interval.contains (Interval.sin X) (sin x).
Proof. intros HX. apply sincos_sound, HX. Qed.

Lemma cos_sound (X : Interval.interval) (x : R) :
  Interval.contains X x -> Interval.contains (Interval.cos X) (cos x).
Proof. intros HX. apply sincos_sound, HX. Qed.

Lemma smoothstep_sound (X : Interval.interval) (x : R) :
  Interval.contains X x -> Interval.contains (Interval.smoothstep_0_01 X) (smoothstep 0 0.1 x).
Proof.
  intros HX. unfold Interval.smoothstep_0_01, smoothstep. cbv zeta.
  replace ((x - 0) / (0.1 - 0)) with (x * 10) by lra.
  assert (HT : Interval.contains (Interval.clamp01 (Interval.mul X (Interval.of_Z 10)))
                        (clamp (x * 10) 0 1)).
  { apply clamp01_sound, mul_sound; [exact HX | apply of_Z_sound]. }
  apply mul_sound; [apply mul_sound; exact HT|].
  apply sub_sound; [apply of_Z_sound|].
  apply mul_sound; [apply of_Z_sound | exact HT].
Qed.

End IntervalFunctions.

(** ** Soundness of the interval evaluation of the program *)

Section ShaderSound.

Import IntervalSound.

Lemma index_sound (i : nat) : Interval.contains (Interval.index i) (INR i).
Proof. unfold Interval.index. rewrite INR_IZR_INZ. apply of_Z_sound. Qed.

Lemma decimal_sound (n d : Z) (r : R) :
  (0 < d)%Z -> r = IZR n / IZR d -> Interval.contains (Interval.const n d) r.
Proof. intros Hd ->. apply const_sound, Hd. Qed.

(** The enclosure of an expression follows its shape. *)
Ltac enclose :=
  repeat first
    [ assumption
    | simple apply smoothstep_sound
    | simple apply sin_sound | simple apply cos_sound
    | simple apply sqrt_sound | simple apply fract_sound | simple apply abs_sound
    | simple apply index_sound | simple apply of_Z_sound
    | simple apply divZ_sound; [reflexivity|]
    | simple apply decimal_sound; [reflexivity | lra]
    | simple apply add_sound | simple apply sub_sound
    | simple apply mul_sound | simple apply opp_sound ].

Lemma rotate_scale_sound (i : nat) T t UV uv :
  Interval.contains T t -> Interval.contains2 UV uv ->
  Interval.contains2 (Interval.rotate_scale i T UV) (rotate_scale i t uv).
Proof.
  intros HT [Hx Hy].
  unfold Interval.contains2, Interval.rotate_scale, rotate_scale, rot,
    vec2_mul_mat2, vec2_scale, Interval.scale2, Interval.dot, dot.
  cbn [vx vy col0 col1 Interval.ix Interval.iy]. split; enclose.
Qed.

Lemma wave_sound (i : nat) T t P p :
  Interval.contains T t -> Interval.contains2 P p ->
  Interval.contains2 (Interval.wave i T P) (wave i t p).
Proof.
  intros HT [Hx Hy].
  unfold Interval.contains2, Interval.wave, wave, wave_y, wave_x.
  cbn [vx vy Interval.ix Interval.iy]. split; enclose.
Qed.

Lemma tile_sound P p :
  Interval.contains2 P p -> Interval.contains2 (Interval.tile P) (tile p).
Proof.
  intros [Hx Hy].
  unfold Interval.contains2, Interval.tile, tile, vec2_sub_scalar, vec2_map, vec2_scale.
  cbn [vx vy Interval.ix Interval.iy]. split; enclose.
Qed.

Lemma length_sound P p :
  Interval.contains2 P p -> Interval.contains (Interval.length P) (length p).
Proof.
  intros [Hx Hy]. unfold Interval.length, length, Interval.dot, dot. enclose.
Qed.

Lemma band_sound (i : nat) T t P p :
  Interval.contains T t -> Interval.contains2 P p ->
  Interval.contains (Interval.band i T P) (band i t p).
Proof.
  intros HT HP. pose proof (length_sound P p HP) as Hlen.
  unfold Interval.band, band, sdCircle. cbv zeta. enclose.
Qed.

Lemma pattern_sound (i : nat) T t UV uv :
  Interval.contains T t -> Interval.contains2 UV uv ->
  Interval.contains (Interval.pattern i T UV)
    (pattern i t (wave i t (rotate_scale i t uv))).
Proof.
  intros HT HUV. unfold Interval.pattern, pattern.
  apply band_sound; [exact HT|].
  apply tile_sound, wave_sound; [exact HT|].
  apply rotate_scale_sound; assumption.
Qed.

Lemma noise_sound UV uv :
  Interval.contains2 UV uv -> Interval.contains (Interval.noise UV) (noise uv).
Proof.
  intros [Hx Hy]. unfold Interval.noise, noise, Interval.dot, dot.
  cbn [vx vy Interval.ix Interval.iy]. enclose.
Qed.

Lemma vignette_factor_sound UV uv :
  Interval.contains2 UV uv ->
  Interval.contains (Interval.vignette_factor UV) (vignette_factor uv).
Proof.
  intros [Hx Hy].
  assert (Hlen : Interval.contains
            (Interval.length (Interval.scale2 UV (Interval.const 5 10)))
            (length (vec2_scale uv 0.5))).
  { apply length_sound. split; cbn [vx vy vec2_scale Interval.scale2 Interval.ix Interval.iy];
      unfold vec2_scale; cbn [vx vy]; enclose. }
  unfold Interval.vignette_factor, vignette_factor, vignette. enclose.
Qed.

(** The interval evaluation encloses the colour the program computes. *)
Lemma shade_sound UV uv T t :
  Interval.contains2 UV uv -> Interval.contains T t ->
  Interval.contains3 (Interval.shade UV T) (shade uv t).
Proof.
  intros HUV HT.
  pose proof (pattern_sound 0 T t UV uv HT HUV) as H0.
  pose proof (pattern_sound 1 T t UV uv HT HUV) as H1.
  pose proof (pattern_sound 2 T t UV uv HT HUV) as H2.
  pose proof (noise_sound UV uv HUV) as Hn.
  pose proof (vignette_factor_sound UV uv HUV) as Hf.
  destruct (unvignetted_channels uv t) as (Hr & Hg & Hb).
  cbv zeta in Hr, Hg, Hb.
  unfold Interval.contains3, Interval.shade, shade, vec3_scale, Interval.channel.
  cbv zeta. cbn [cr cg cb Interval.ir Interval.ig Interval.ib].
  rewrite Hr, Hg, Hb. split; [|split]; enclose.
Qed.

Lemma point_sound (x y d : Z) (a b : R) :
  (0 < d)%Z -> a = IZR x / IZR d -> b = IZR y / IZR d ->
  Interval.contains2 (Interval.point x y d) (Vec2 a b).
Proof.
  intros Hd Ha Hb. split; cbn [vx vy Interval.point Interval.ix Interval.iy];
    apply decimal_sound; assumption.
Qed.

Lemma time_zero_sound : Interval.contains (Interval.of_Z 0) (0 * 0.3).
Proof. apply contains_eq with 0; [apply of_Z_sound | lra]. Qed.

Lemma below3_sound C D c d :
  Interval.contains3 C c -> Interval.contains3 D d ->
  Interval.below3 C D = true ->
  cr c < cr d /\ cg c < cg d /\ cb c < cb d.
Proof.
  intros (Hr1 & Hg1 & Hb1) (Hr2 & Hg2 & Hb2) Hb.
  unfold Interval.below3 in Hb.
  apply andb_true_iff in Hb. destruct Hb as [Hb Hbb].
  apply andb_true_iff in Hb. destruct Hb as [Hbr Hbg].
  split; [|split].
  - exact (contains_bounds _ _ _ _ Hr1 Hr2 Hbr).
  - exact (contains_bounds _ _ _ _ Hg1 Hg2 Hbg).
  - exact (contains_bounds _ _ _ _ Hb1 Hb2 Hbb).
Qed.

Lemma inside_sound I x a b :
  Interval.contains I x -> Interval.inside I a b = true ->
  IZR a / IZR Interval.scale <= x <= IZR b / IZR Interval.scale.
Proof.
  unfold Interval.contains, Interval.inside. intros [Hl Hh] Hin.
  apply andb_true_iff in Hin. destruct Hin as [Ha Hb].
  apply Z.leb_le, IZR_le in Ha. apply Z.leb_le, IZR_le in Hb.
  pose proof scale_pos as Hs. split.
  - apply Rmult_le_reg_r with (IZR Interval.scale); [exact Hs|].
    replace (IZR a / IZR Interval.scale * IZR Interval.scale) with (IZR a)
      by (field; lra). lra.
  - apply Rmult_le_reg_r with (IZR Interval.scale); [exact Hs|].
    replace (IZR b / IZR Interval.scale * IZR Interval.scale) with (IZR b)
      by (field; lra). lra.
Qed.

Lemma inside3_sound C c r1 r2 g1 g2 b1 b2 :
  Interval.contains3 C c -> Interval.inside3 C r1 r2 g1 g2 b1 b2 = true ->
  IZR r1 / IZR Interval.scale <= cr c <= IZR r2 / IZR Interval.scale /\
  IZR g1 / IZR Interval.scale <= cg c <= IZR g2 / IZR Interval.scale /\
  IZR b1 / IZR Interval.scale <= cb c <= IZR b2 / IZR Interval.scale.
Proof.
  intros (Hr & Hg & Hb) Hin. unfold Interval.inside3 in Hin.
  apply andb_true_iff in Hin. destruct Hin as [Hin Hinb].
  apply andb_true_iff in Hin. destruct Hin as [Hinr Hing].
  split; [|split].
  - exact (inside_sound _ _ _ _ Hr Hinr).
  - exact (inside_sound _ _ _ _ Hg Hing).
  - exact (inside_sound _ _ _ _ Hb Hinb).
Qed.

(** The colour of a pixel is bounded by evaluating it on intervals. *)
Lemma bounds_by_evaluation UV T uv t r1 r2 g1 g2 b1 b2 :
  Interval.contains2 UV uv -> Interval.contains T t ->
  Interval.inside3 (Interval.shade UV T) r1 r2 g1 g2 b1 b2 = true ->
  IZR r1 / IZR Interval.scale <= cr (shade uv t) <= IZR r2 / IZR Interval.scale /\
  IZR g1 / IZR Interval.scale <= cg (shade uv t) <= IZR g2 / IZR Interval.scale /\
  IZR b1 / IZR Interval.scale <= cb (shade uv t) <= IZR b2 / IZR Interval.scale.
Proof.
  intros HUV HT.
  exact (inside3_sound _ _ _ _ _ _ _ _ (shade_sound UV uv T t HUV HT)).
Qed.

(** Two pixels are compared by evaluating both on intervals. *)
Lemma darker_by_evaluation UV1 UV2 T1 T2 uv1 uv2 t1 t2 :
  Interval.contains2 UV1 uv1 -> Interval.contains T1 t1 ->
  Interval.contains2 UV2 uv2 -> Interval.contains T2 t2 ->
  Interval.below3 (Interval.shade UV1 T1) (Interval.shade UV2 T2) = true ->
  cr (shade uv1 t1) < cr (shade uv2 t2) /\
  cg (shade uv1 t1) < cg (shade uv2 t2) /\
  cb (shade uv1 t1) < cb (shade uv2 t2).
Proof.
  intros H1 HT1 H2 HT2.
  exact (below3_sound _ _ _ _ (shade_sound UV1 uv1 T1 t1 H1 HT1)
           (shade_sound UV2 uv2 T2 t2 H2 HT2)).
Qed.

End ShaderSound.

(** ** The shading function *)

Section Shading.

(** C1. The colour that [main] writes is a function of the normalised
    coordinate and of the time uniform alone: it is [shading] at the
    normalised coordinate, whatever the resolution uniform holds, so two
    runs that differ only in the resolution write the same colour. *)
Theorem main_ignores_resolution (t : R) (res1 res2 vUv : vec2) :
  main (Uniforms t res1) vUv = main (Uniforms t res2) vUv /\
  rgb (main (Uniforms t res1) vUv) =
    shading (vec2_scale (vec2_sub_scalar vUv 0.5) 2) t.
Proof. split; reflexivity. Qed.

Lemma checked_div_nonzero (a b : R) : b <> 0 -> Checked.div a b = Some (a / b).
Proof.
  intros Hb. unfold Checked.div. destruct (Req_dec_T b 0); [contradiction | reflexivity].
Qed.

Lemma checked_length (p : vec2) : Checked.length p = Some (length p).
Proof.
  unfold Checked.length, Checked.sqrt.
  destruct (Rlt_dec (dot p p) 0) as [Hneg | _]; [|reflexivity].
  pose proof (dot_self_nonneg p). lra.
Qed.

Lemma checked_band (i : nat) (time : R) (p : vec2) :
  Checked.band i time p = Some (band i time p).
Proof.
  unfold Checked.band, Checked.sdCircle, Checked.smoothstep.
  rewrite checked_length. cbn [Checked.bind].
  rewrite checked_div_nonzero by lra. cbn [Checked.bind].
  rewrite checked_div_nonzero by lra. reflexivity.
Qed.

Lemma checked_layer (time : R) (uv : vec2) (col : vec3) (i : nat) :
  Checked.layer time uv (Some col) i = Some (layer time uv col i).
Proof.
  unfold Checked.layer. cbn [Checked.bind]. rewrite checked_band. reflexivity.
Qed.

Lemma checked_loop (time : R) (uv : vec2) (l : list nat) (col : vec3) :
  fold_left (Checked.layer time uv) l (Some col) =
  Some (fold_left (layer time uv) l col).
Proof.
  revert col. induction l as [| i l IH]; intros col; [reflexivity|].
  cbn [fold_left]. rewrite checked_layer. apply IH.
Qed.

Lemma checked_shade (uv : vec2) (time : R) :
  Checked.shade uv time = Some (shade uv time).
Proof.
  unfold Checked.shade. rewrite checked_loop. cbn [Checked.bind].
  rewrite checked_length. reflexivity.
Qed.

(** C2. The program with checked arithmetic returns a colour on every
    input: no division meets a zero divisor, no square root a negative
    argument, and the value returned is the one the unchecked program
    computes. *)
Theorem main_total (u : uniforms) (vUv : vec2) :
  Checked.main u vUv = Some (main u vUv).
Proof.
  unfold Checked.main. rewrite checked_shade. reflexivity.
Qed.

(** C3. The wave distortion of a layer adds [sin(y*3 + time*(1 + i*0.5)) * 0.3]
    to [x] and then adds [cos(x'*2 + time*(1.2 + i*0.3)) * 0.2] to [y],
    where [x'] is the value of [x] after the first update; the layer applies
    it to the rotated and scaled point. *)
Theorem wave_sequential (i : nat) (time x y : R) (uv : vec2) (col : vec3) :
  wave i time (Vec2 x y) =
    (let x' := x + sin (y * 3 + time * (1 + INR i * 0.5)) * 0.3 in
     Vec2 x' (y + cos (x' * 2 + time * (1.2 + INR i * 0.3)) * 0.2)) /\
  layer time uv col i =
    vec3_add col (contribution i (pattern i time (wave i time (rotate_scale i time uv)))).
Proof. split; reflexivity. Qed.

(** The second update does read the new [x]: with the old one the result
    differs, for instance at the point [(0, PI/6)] at time zero. *)
Lemma wave_not_simultaneous :
  let p := Vec2 0 (PI / 6) in
  wave 0 0 p <>
  Vec2 (vx p + sin (vy p * 3 + 0 * (1 + 0 * 0.5)) * 0.3)
       (vy p + cos (vx p * 2 + 0 * (1.2 + 0 * 0.3)) * 0.2).
Proof.
  cbv zeta. unfold wave, wave_y, wave_x. cbn [vx vy INR].
  intros Heq. injection Heq as Hy.
  replace (PI / 6 * 3 + 0 * (1 + 0 * 0.5)) with (PI / 2) in Hy by lra.
  rewrite sin_PI2 in Hy.
  replace ((0 + 1 * 0.3) * 2 + 0 * (1.2 + 0 * 0.3)) with 0.6 in Hy by lra.
  replace (0 * 2 + 0 * (1.2 + 0 * 0.3)) with 0 in Hy by lra.
  rewrite cos_0 in Hy.
  assert (Hlt : cos 0.6 < cos 0).
  { pose proof PI2_3_2. apply cos_decreasing_1; lra. }
  rewrite cos_0 in Hlt. lra.
Qed.

Lemma tile_shift_x (p : vec2) : tile (Vec2 (vx p + 1 / 1.5) (vy p)) = tile p.
Proof.
  unfold tile, vec2_scale, vec2_map, vec2_sub_scalar. cbn [vx vy].
  replace ((vx p + 1 / 1.5) * 1.5) with (vx p * 1.5 + 1) by lra.
  rewrite fract_succ. reflexivity.
Qed.

Lemma tile_shift_y (p : vec2) : tile (Vec2 (vx p) (vy p + 1 / 1.5)) = tile p.
Proof.
  unfold tile, vec2_scale, vec2_map, vec2_sub_scalar. cbn [vx vy].
  replace ((vy p + 1 / 1.5) * 1.5) with (vy p * 1.5 + 1) by lra.
  rewrite fract_succ. reflexivity.
Qed.

(** C6. For a fixed layer and a fixed time the pattern of the layer, as a
    function of the point that enters the tiling step, has period [1/1.5]
    along each axis, and so has the colour the layer contributes. *)
Theorem pattern_periodic (i : nat) (time : R) (p : vec2) :
  pattern i time (Vec2 (vx p + 1 / 1.5) (vy p)) = pattern i time p /\
  pattern i time (Vec2 (vx p) (vy p + 1 / 1.5)) = pattern i time p /\
  contribution i (pattern i time (Vec2 (vx p + 1 / 1.5) (vy p))) =
    contribution i (pattern i time p) /\
  contribution i (pattern i time (Vec2 (vx p) (vy p + 1 / 1.5))) =
    contribution i (pattern i time p).
Proof.
  unfold pattern. rewrite tile_shift_x, tile_shift_y. repeat split.
Qed.

Lemma noise_origin : noise (Vec2 0 0) = 0.
Proof.
  unfold noise, dot. cbn [vx vy].
  replace (0 * 12.9898 + 0 * 78.233) with 0 by lra.
  rewrite sin_0, Rmult_0_l. apply fract_0.
Qed.

(** C10. At the centre the noise term is zero, so the background that
    enters the blend there is the base colour, at every time. *)
Theorem center_background (time : R) :
  noise (Vec2 0 0) = 0 /\
  background (Vec2 0 0) = Vec3 0.08 0.12 0.18 /\
  unvignetted (Vec2 0 0) time =
    vec3_mix (Vec3 0.08 0.12 0.18)
      (vec3_add (Vec3 0.08 0.12 0.18)
         (fold_left (layer time (Vec2 0 0)) layers (vec3_splat 0))) 0.8.
Proof.
  assert (Hbg : background (Vec2 0 0) = Vec3 0.08 0.12 0.18).
  { unfold background. rewrite noise_origin.
    unfold vec3_add_scalar, base_background. cbn [cr cg cb]. f_equal; lra. }
  split; [apply noise_origin|]. split; [exact Hbg|].
  unfold unvignetted. cbv zeta. rewrite Hbg. reflexivity.
Qed.

(** C9. On the square of normalised coordinates every channel of the
    colour lies strictly between zero and one, at every time. *)
Theorem shading_in_unit_range (uv : vec2) (t : R) :
  in_square uv ->
  0 < cr (shading uv t) < 1 /\
  0 < cg (shading uv t) < 1 /\
  0 < cb (shading uv t) < 1.
Proof.
  intros Hsq. unfold shading, shade, vec3_scale. cbn [cr cg cb].
  destruct (unvignetted_channels uv (t * 0.3)) as (Hr & Hg & Hb).
  cbv zeta in Hr, Hg, Hb. rewrite Hr, Hg, Hb.
  pose proof (pattern_range 0 (t * 0.3) (wave 0 (t * 0.3) (rotate_scale 0 (t * 0.3) uv))).
  pose proof (pattern_range 1 (t * 0.3) (wave 1 (t * 0.3) (rotate_scale 1 (t * 0.3) uv))).
  pose proof (pattern_range 2 (t * 0.3) (wave 2 (t * 0.3) (rotate_scale 2 (t * 0.3) uv))).
  pose proof (noise_range uv). pose proof (vignette_factor_range uv Hsq).
  repeat split; nra.
Qed.

Lemma shading_in_unit_range_witness :
  0 < cr (shading (Vec2 0 0) 0) < 1 /\
  0 < cg (shading (Vec2 0 0) 0) < 1 /\
  0 < cb (shading (Vec2 0 0) 0) < 1.
Proof.
  apply (shading_in_unit_range (Vec2 0 0) 0).
  unfold in_square; simpl; lra.
Defined.

End Shading.

(** ** The vignette and two reference pixels *)

Section Reference.

Import IntervalSound.

Lemma shading_factor (uv : vec2) (t : R) :
  shading uv t = vec3_scale (unvignetted uv (t * 0.3)) (vignette_factor uv).
Proof. reflexivity. Qed.

Lemma unvignetted_positive (uv : vec2) (time : R) :
  0 < cr (unvignetted uv time) /\
  0 < cg (unvignetted uv time) /\
  0 < cb (unvignetted uv time).
Proof.
  destruct (unvignetted_channels uv time) as (Hr & Hg & Hb).
  cbv zeta in Hr, Hg, Hb. rewrite Hr, Hg, Hb.
  pose proof (pattern_range 0 time (wave 0 time (rotate_scale 0 time uv))).
  pose proof (pattern_range 1 time (wave 1 time (rotate_scale 1 time uv))).
  pose proof (pattern_range 2 time (wave 2 time (rotate_scale 2 time uv))).
  pose proof (noise_range uv). repeat split; nra.
Qed.

(** C5, as the program has it.  The vignette factor is [1 - 0.15 * |uv|],
    strictly smaller the farther the pixel is from the centre; the colour
    written is the colour before the vignette, whose channels are positive,
    times that factor.  So a fixed colour is darkened strictly more, in
    every channel, at the pixel farther out. *)
Theorem vignette_darkens (uv1 uv2 : vec2) (c : vec3) (t : R) :
  length uv1 < length uv2 ->
  0 < cr c -> 0 < cg c -> 0 < cb c ->
  vignette_factor uv2 < vignette_factor uv1 /\
  cr (vec3_scale c (vignette_factor uv2)) < cr (vec3_scale c (vignette_factor uv1)) /\
  cg (vec3_scale c (vignette_factor uv2)) < cg (vec3_scale c (vignette_factor uv1)) /\
  cb (vec3_scale c (vignette_factor uv2)) < cb (vec3_scale c (vignette_factor uv1)) /\
  brightness (vec3_scale c (vignette_factor uv2)) <
    brightness (vec3_scale c (vignette_factor uv1)) /\
  shading uv1 t = vec3_scale (unvignetted uv1 (t * 0.3)) (vignette_factor uv1) /\
  0 < cr (unvignetted uv1 (t * 0.3)) /\
  0 < cg (unvignetted uv1 (t * 0.3)) /\
  0 < cb (unvignetted uv1 (t * 0.3)).
Proof.
  intros Hlen Hr Hg Hb.
  assert (Hf : vignette_factor uv2 < vignette_factor uv1)
    by (rewrite !vignette_factor_closed; lra).
  unfold brightness, vec3_scale. cbn [cr cg cb].
  pose proof (unvignetted_positive uv1 (t * 0.3)) as (Pr & Pg & Pb).
  repeat split; try assumption; nra.
Qed.

Lemma length_origin : length (Vec2 0 0) = 0.
Proof.
  unfold length, dot. cbn [vx vy].
  replace (0 * 0 + 0 * 0) with 0 by lra. apply sqrt_0.
Qed.

Lemma length_unit_x : length (Vec2 1 0) = 1.
Proof.
  unfold length, dot. cbn [vx vy].
  replace (1 * 1 + 0 * 0) with 1 by lra. apply sqrt_1.
Qed.

Lemma vignette_darkens_witness :
  vignette_factor (Vec2 1 0) < vignette_factor (Vec2 0 0) /\
  cr (vec3_scale base_background (vignette_factor (Vec2 1 0))) <
    cr (vec3_scale base_background (vignette_factor (Vec2 0 0))).
Proof.
  destruct (vignette_darkens (Vec2 0 0) (Vec2 1 0) base_background 0)
    as (Hf & Hr & _).
  - rewrite length_origin, length_unit_x. lra.
  - simpl. lra.
  - simpl. lra.
  - simpl. lra.
  - split; [exact Hf | exact Hr].
Defined.

Lemma length_diagonal (a : R) : 0 <= a -> length (Vec2 a a) = a * sqrt 2.
Proof.
  intros Ha. unfold length, dot. cbn [vx vy].
  replace (a * a + a * a) with (a² * 2) by (unfold Rsqr; ring).
  rewrite sqrt_mult_alt by apply Rle_0_sqr. rewrite sqrt_Rsqr by exact Ha.
  reflexivity.
Qed.

(** C5, as stated, fails.  At time zero the pixel a tenth of the way along
    the diagonal is farther from the centre than the centre pixel and is
    brighter than it, in every channel and in the sum of the channels. *)
Lemma vignette_not_monotone :
  let uv1 := Vec2 0 0 in
  let uv2 := Vec2 (1 / 10) (1 / 10) in
  in_square uv1 /\ in_square uv2 /\ length uv1 < length uv2 /\
  cr (shading uv1 0) < cr (shading uv2 0) /\
  cg (shading uv1 0) < cg (shading uv2 0) /\
  cb (shading uv1 0) < cb (shading uv2 0) /\
  brightness (shading uv1 0) < brightness (shading uv2 0).
Proof.
  cbv zeta.
  assert (Hcmp :
    cr (shading (Vec2 0 0) 0) < cr (shading (Vec2 (1 / 10) (1 / 10)) 0) /\
    cg (shading (Vec2 0 0) 0) < cg (shading (Vec2 (1 / 10) (1 / 10)) 0) /\
    cb (shading (Vec2 0 0) 0) < cb (shading (Vec2 (1 / 10) (1 / 10)) 0)).
  { unfold shading.
    apply (darker_by_evaluation (Interval.point 0 0 1) (Interval.point 1 1 10)
             (Interval.of_Z 0) (Interval.of_Z 0)).
    - apply point_sound; [reflexivity | lra | lra].
    - apply time_zero_sound.
    - apply point_sound; [reflexivity | lra | lra].
    - apply time_zero_sound.
    - vm_compute. reflexivity. }
  destruct Hcmp as (Hr & Hg & Hb).
  split; [unfold in_square; cbn [vx vy]; lra|].
  split; [unfold in_square; cbn [vx vy]; lra|].
  split.
  { rewrite length_origin, length_diagonal by lra.
    pose proof (sqrt_lt_R0 2 ltac:(lra)). lra. }
  unfold brightness. repeat split; lra.
Qed.

Lemma vec3_scale_one (c : vec3) : vec3_scale c 1 = c.
Proof. destruct c as [r g b]. unfold vec3_scale. cbn [cr cg cb]. f_equal; lra. Qed.

Lemma vignette_factor_origin : vignette_factor (Vec2 0 0) = 1.
Proof. rewrite vignette_factor_closed, length_origin. lra. Qed.

Lemma vignette_factor_corner :
  vignette_factor (Vec2 1 1) = 0.7 + 0.3 * (1 - sqrt 2 * 0.5).
Proof. rewrite vignette_factor_closed, length_diagonal by lra. lra. Qed.

Lemma rotate_scale_origin (i : nat) (time : R) :
  rotate_scale i time (Vec2 0 0) = Vec2 0 0.
Proof.
  unfold rotate_scale, vec2_mul_mat2, rot, dot, vec2_scale.
  cbn [vx vy col0 col1]. f_equal; ring.
Qed.

Lemma wave_origin (i : nat) : wave i 0 (Vec2 0 0) = Vec2 0 0.2.
Proof.
  unfold wave, wave_y, wave_x. cbn [vx vy].
  replace (0 * 3 + 0 * (1 + INR i * 0.5)) with 0 by ring.
  rewrite sin_0.
  replace ((0 + 0 * 0.3) * 2 + 0 * (1.2 + INR i * 0.3)) with 0 by ring.
  rewrite cos_0. f_equal; lra.
Qed.

(** The pixel at the origin at time zero: in every layer the point that
    reaches the distance field is [(-0.5, -0.2)]. *)
Lemma origin_tile (i : nat) :
  tile (wave i 0 (rotate_scale i 0 (Vec2 0 0))) = Vec2 (- 0.5) (- 0.2).
Proof.
  rewrite rotate_scale_origin, wave_origin.
  unfold tile, vec2_sub_scalar, vec2_map, vec2_scale. cbn [vx vy].
  replace (0 * 1.5) with 0 by ring.
  replace (0.2 * 1.5) with 0.3 by lra.
  rewrite fract_0, (fract_small 0.3) by lra.
  f_equal; lra.
Qed.

(** C7. At the centre at time zero the vignette factor is one and the
    colour is the base background blended, with factor 0.8, with the three
    layers evaluated at the origin; at the corner [(1,1)] the vignette
    factor is [0.7 + 0.3 * (1 - sqrt 2 * 0.5)], and the colour there is
    darker than at the centre in every channel. *)
Theorem center_and_corner :
  vignette_factor (Vec2 0 0) = 1 /\
  shading (Vec2 0 0) 0 =
    vec3_mix base_background
      (vec3_add base_background
         (fold_left (layer (0 * 0.3) (Vec2 0 0)) layers (vec3_splat 0))) 0.8 /\
  vignette_factor (Vec2 1 1) = 0.7 + 0.3 * (1 - sqrt 2 * 0.5) /\
  shading (Vec2 1 1) 0 =
    vec3_scale (unvignetted (Vec2 1 1) (0 * 0.3)) (0.7 + 0.3 * (1 - sqrt 2 * 0.5)) /\
  cr (shading (Vec2 1 1) 0) < cr (shading (Vec2 0 0) 0) /\
  cg (shading (Vec2 1 1) 0) < cg (shading (Vec2 0 0) 0) /\
  cb (shading (Vec2 1 1) 0) < cb (shading (Vec2 0 0) 0).
Proof.
  split; [apply vignette_factor_origin|].
  split.
  { rewrite shading_factor, vignette_factor_origin, vec3_scale_one.
    unfold unvignetted. cbv zeta.
    replace (background (Vec2 0 0)) with base_background; [reflexivity|].
    unfold background. rewrite noise_origin.
    unfold vec3_add_scalar, base_background. cbn [cr cg cb]. f_equal; lra. }
  split; [apply vignette_factor_corner|].
  split; [rewrite shading_factor, vignette_factor_corner; reflexivity|].
  unfold shading.
  apply (darker_by_evaluation (Interval.point 1 1 1) (Interval.point 0 0 1)
           (Interval.of_Z 0) (Interval.of_Z 0)).
  - apply point_sound; [reflexivity | lra | lra].
  - apply time_zero_sound.
  - apply point_sound; [reflexivity | lra | lra].
  - apply time_zero_sound.
  - vm_compute. reflexivity.
Qed.

(** Reference values at time zero, to six decimal places: the centre, the
    corner, and the pixel a tenth of the way along the diagonal. *)
Lemma reference_center :
  0.249765 <= cr (shading (Vec2 0 0) 0) <= 0.249766 /\
  0.290657 <= cg (shading (Vec2 0 0) 0) <= 0.290658 /\
  0.454306 <= cb (shading (Vec2 0 0) 0) <= 0.454307.
Proof.
  unfold shading.
  destruct (bounds_by_evaluation (Interval.point 0 0 1) (Interval.of_Z 0)
              (Vec2 0 0) (0 * 0.3)
              249765000000 249766000000 290657000000 290658000000
              454306000000 454307000000) as (Hr & Hg & Hb).
  - apply point_sound; [reflexivity | lra | lra].
  - apply time_zero_sound.
  - vm_compute. reflexivity.
  - unfold Interval.scale in Hr, Hg, Hb. lra.
Qed.

Lemma reference_corner :
  0.119052 <= cr (shading (Vec2 1 1) 0) <= 0.119054 /\
  0.179038 <= cg (shading (Vec2 1 1) 0) <= 0.179040 /\
  0.262397 <= cb (shading (Vec2 1 1) 0) <= 0.262400.
Proof.
  unfold shading.
  destruct (bounds_by_evaluation (Interval.point 1 1 1) (Interval.of_Z 0)
              (Vec2 1 1) (0 * 0.3)
              119052000000 119054000000 179038000000 179040000000
              262397000000 262400000000) as (Hr & Hg & Hb).
  - apply point_sound; [reflexivity | lra | lra].
  - apply time_zero_sound.
  - vm_compute. reflexivity.
  - unfold Interval.scale in Hr, Hg, Hb. lra.
Qed.

Lemma reference_tenth :
  0.283833 <= cr (shading (Vec2 (1 / 10) (1 / 10)) 0) <= 0.283834 /\
  0.340716 <= cg (shading (Vec2 (1 / 10) (1 / 10)) 0) <= 0.340717 /\
  0.523438 <= cb (shading (Vec2 (1 / 10) (1 / 10)) 0) <= 0.523439.
Proof.
  unfold shading.
  destruct (bounds_by_evaluation (Interval.point 1 1 10) (Interval.of_Z 0)
              (Vec2 (1 / 10) (1 / 10)) (0 * 0.3)
              283833000000 283834000000 340716000000 340717000000
              523438000000 523439000000) as (Hr & Hg & Hb).
  - apply point_sound; [reflexivity | lra | lra].
  - apply time_zero_sound.
  - vm_compute. reflexivity.
  - unfold Interval.scale in Hr, Hg, Hb. lra.
Qed.

End Reference.

(** ** The host component *)

Section HostInvariants.

Import Host.

Lemma step_memo_resolution (s : state) (e : event) (u : uniforms) :
  memo s = Some u ->
  exists u', memo (step s e) = Some u' /\ uResolution u' = uResolution u.
Proof.
  intros Hm. destruct e as [| elapsed | w h]; cbn [step].
  - unfold useMemo. rewrite Hm. cbn [memo]. now exists u.
  - rewrite Hm. destruct (meshRef s); cbn [memo].
    + eexists; split; reflexivity.
    + now exists u.
  - cbn [memo]. now exists u.
Qed.

Lemma run_memo_resolution (es : list event) (s : state) (u : uniforms) :
  memo s = Some u ->
  exists u', memo (run s es) = Some u' /\ uResolution u' = uResolution u.
Proof.
  revert s u. induction es as [| e es IH]; intros s u Hm.
  - now exists u.
  - destruct (step_memo_resolution s e u Hm) as (u1 & Hm1 & Hr1).
    destruct (IH (step s e) u1 Hm1) as (u2 & Hm2 & Hr2).
    exists u2. split; [exact Hm2 | congruence].
Qed.

Lemma step_mesh (s : state) (e : event) (m : mesh) :
  meshRef s = Some m -> meshRef (step s e) = Some m.
Proof.
  intros Hm. destruct e as [| elapsed | w h]; cbn [step].
  - unfold mount_mesh. now rewrite Hm.
  - rewrite Hm. destruct (memo s); cbn [meshRef]; first [reflexivity | exact Hm].
  - exact Hm.
Qed.

Lemma run_mesh (es : list event) (s : state) (m : mesh) :
  meshRef s = Some m -> meshRef (run s es) = Some m.
Proof.
  revert s. induction es as [| e es IH]; intros s Hm; [exact Hm|].
  apply IH, step_mesh, Hm.
Qed.

(** C4, as the program has it.  The resolution uniform receives the size of
    the viewport at the first render of the component; no later render,
    frame or resize changes it. *)
Theorem resolution_fixed_at_first_render (s : state) (es : list event) :
  memo s = None ->
  exists u, memo (run s (Render :: es)) = Some u /\ uResolution u = viewport s.
Proof.
  intros Hm.
  destruct (run_memo_resolution es (step s Render) (make_uniforms (win s)))
    as (u & Hu & Hr).
  - cbn [step memo]. unfold useMemo. now rewrite Hm.
  - exists u. split; [exact Hu|]. rewrite Hr. reflexivity.
Qed.

Lemma resolution_fixed_at_first_render_witness :
  exists u,
    memo (run (initial (Window 800 600)) (Render :: [Resize 1600 1200; Render; Frame 1]))
      = Some u /\
    uResolution u = viewport (initial (Window 800 600)).
Proof.
  apply (resolution_fixed_at_first_render (initial (Window 800 600))
           [Resize 1600 1200; Render; Frame 1]).
  reflexivity.
Defined.

(** C4, as stated, fails.  The window is resized from 800x600 to 1600x1200
    after the first render; the component is rendered again and a frame is
    drawn, and the resolution uniform still holds 800x600. *)
Lemma resolution_stale_after_resize :
  let s := run (initial (Window 800 600)) [Render; Resize 1600 1200; Render; Frame 1] in
  exists u, memo s = Some u /\ uResolution u <> viewport s.
Proof.
  cbv zeta. eexists. split; [reflexivity|].
  unfold viewport. cbn. intros Heq. injection Heq as Hw Hh. lra.
Qed.

(** A resize leaves the drawn picture as it was: the uniforms object is not
    touched, and the program would not read the resolution anyway. *)
Lemma resize_keeps_picture (s : state) (w h : Z) (vUv : vec2) :
  draw (step s (Resize w h)) vUv = draw s vUv.
Proof. reflexivity. Qed.

(** C8. From the first render on the mesh holds one plane geometry, two
    units wide and two units high with corners at [(+-1, +-1)], and no
    event replaces or changes it. *)
Theorem geometry_constant (w : window) (es : list event) :
  exists m,
    meshRef (run (initial w) (Render :: es)) = Some m /\
    geometry m = PlaneGeometry 2 2 /\
    width (geometry m) = 2 /\ height (geometry m) = 2 /\
    Forall (fun c => Rabs (vx c) = 1 /\ Rabs (vy c) = 1) (corners (geometry m)).
Proof.
  exists (Mesh (PlaneGeometry 2 2) (2, 2, 1)).
  split.
  { change (run (initial w) (Render :: es)) with (run (step (initial w) Render) es).
    apply run_mesh. reflexivity. }
  cbn [geometry width height]. repeat split.
  unfold corners. cbn [width height].
  repeat constructor; cbn [vx vy].
  all: try (replace (- (2) / 2) with (- (1)) by lra; rewrite Rabs_Ropp).
  all: try (replace (2 / 2) with 1 by lra); apply Rabs_R1.
Qed.

End HostInvariants.

(** ** Further properties of the fragment program *)

Section Rotation.

Lemma dot_rot (v : vec2) (a : R) :
  dot (vec2_mul_mat2 v (rot a)) (vec2_mul_mat2 v (rot a)) = dot v v.
Proof.
  unfold vec2_mul_mat2, rot, dot. cbn [vx vy col0 col1].
  pose proof (sin2_cos2 a) as H. unfold Rsqr in H.
  replace ((vx v * cos a + vy v * - sin a) * (vx v * cos a + vy v * - sin a) +
           (vx v * sin a + vy v * cos a) * (vx v * sin a + vy v * cos a))
    with ((vx v * vx v + vy v * vy v) * (sin a * sin a + cos a * cos a)) by ring.
  rewrite H. ring.
Qed.

(** X1. The matrix [rot(a)] is a rotation: multiplying a vector by it
    keeps the length of the vector. *)
Theorem rot_preserves_length (v : vec2) (a : R) :
  length (vec2_mul_mat2 v (rot a)) = length v.
Proof. unfold length. rewrite dot_rot. reflexivity. Qed.

(** X2. Rotations compose by adding their angles, and the rotation by
    zero is the identity. *)
Theorem rot_composes (v : vec2) (a b : R) :
  vec2_mul_mat2 (vec2_mul_mat2 v (rot a)) (rot b) = vec2_mul_mat2 v (rot (a + b)) /\
  vec2_mul_mat2 v (rot 0) = v.
Proof.
  split.
  - unfold vec2_mul_mat2, rot, dot. cbn [vx vy col0 col1].
    rewrite cos_plus, sin_plus. f_equal; ring.
  - destruct v as [x y]. unfold vec2_mul_mat2, rot, dot. cbn [vx vy col0 col1].
    rewrite cos_0, sin_0. f_equal; ring.
Qed.

Lemma length_scale (p : vec2) (k : R) :
  0 <= k -> length (vec2_scale p k) = k * length p.
Proof.
  intros Hk. unfold length.
  replace (dot (vec2_scale p k) (vec2_scale p k)) with (k² * dot p p)
    by (unfold dot, vec2_scale, Rsqr; cbn [vx vy]; ring).
  rewrite sqrt_mult_alt by apply Rle_0_sqr. rewrite sqrt_Rsqr by exact Hk.
  reflexivity.
Qed.

(** X3. The first step of a layer turns the pixel about the origin and
    moves it away from it by the factor [1 + 0.3 * i]: the length of the
    point is the length of [uv] times that factor, at every time. *)
Theorem rotate_scale_length (i : nat) (time : R) (uv : vec2) :
  length (rotate_scale i time uv) = (1 + INR i * 0.3) * length uv.
Proof.
  unfold rotate_scale. cbv zeta.
  rewrite length_scale by (pose proof (pos_INR i); nra).
  rewrite rot_preserves_length. reflexivity.
Qed.

End Rotation.

Section Layer.

(** X4. The wave distortion moves a point by at most 0.3 along x and by
    at most 0.2 along y. *)
Theorem wave_displacement (i : nat) (time : R) (p : vec2) :
  Rabs (vx (wave i time p) - vx p) <= 0.3 /\
  Rabs (vy (wave i time p) - vy p) <= 0.2.
Proof.
  unfold wave, wave_y, wave_x. cbn [vx vy].
  split.
  - match goal with |- Rabs (_ + sin ?a * _ - _) <= _ =>
      pose proof (SIN_bound a) as H end.
    apply Rabs_le. lra.
  - match goal with |- Rabs (_ + cos ?a * _ - _) <= _ =>
      pose proof (COS_bound a) as H end.
    apply Rabs_le. lra.
Qed.

(** X5. The tiling step folds every point into the cell
    [[-0.5, 0.5) x [-0.5, 0.5)], so the point that reaches the distance
    field is never farther than [sqrt(1/2)] from the centre of its cell. *)
Theorem tile_cell (p : vec2) :
  -0.5 <= vx (tile p) < 0.5 /\
  -0.5 <= vy (tile p) < 0.5 /\
  length (tile p) <= sqrt (1 / 2).
Proof.
  assert (Hx : -0.5 <= vx (tile p) < 0.5).
  { unfold tile, vec2_sub_scalar, vec2_map, vec2_scale. cbn [vx vy].
    pose proof (fract_range (vx p * 1.5)). lra. }
  assert (Hy : -0.5 <= vy (tile p) < 0.5).
  { unfold tile, vec2_sub_scalar, vec2_map, vec2_scale. cbn [vx vy].
    pose proof (fract_range (vy p * 1.5)). lra. }
  split; [exact Hx|]. split; [exact Hy|].
  unfold length. apply sqrt_le_1_alt. unfold dot. nra.
Qed.

Lemma smoothstep_zero_iff (t : R) :
  0 <= t <= 1 -> (t * t * (3 - 2 * t) = 0 <-> t = 0).
Proof.
  intros Ht. split.
  - intros H. destruct (Rmult_integral _ _ H) as [H1 | H1]; [|lra].
    destruct (Rmult_integral _ _ H1); assumption.
  - intros ->. ring.
Qed.

Lemma smoothstep_one_iff (t : R) :
  0 <= t <= 1 -> (t * t * (3 - 2 * t) = 1 <-> t = 1).
Proof.
  intros Ht. split.
  - intros H.
    assert (H' : (1 - t) * (1 - t) * (1 + 2 * t) = 0) by (ring_simplify; lra).
    destruct (Rmult_integral _ _ H') as [H1 | H1]; [|lra].
    destruct (Rmult_integral _ _ H1); lra.
  - intros ->. ring.
Qed.

Lemma clamp_zero_iff (x : R) : clamp x 0 1 = 0 <-> x <= 0.
Proof.
  destruct (IntervalSound.clamp01_cases x) as [[Hc Ec] | [[Hc Ec] | [Hc Ec]]];
    rewrite Ec; split; intros H; lra.
Qed.

Lemma clamp_one_iff (x : R) : clamp x 0 1 = 1 <-> 1 <= x.
Proof.
  destruct (IntervalSound.clamp01_cases x) as [[Hc Ec] | [[Hc Ec] | [Hc Ec]]];
    rewrite Ec; split; intros H; lra.
Qed.

Lemma Rabs_zero_iff (s : R) : Rabs s <= 0 <-> s = 0.
Proof.
  split.
  - intros H. destruct (Req_dec s 0) as [E | E]; [exact E|].
    pose proof (Rabs_pos_lt s E). lra.
  - intros ->. rewrite Rabs_R0. lra.
Qed.

(** X6. The banding saturates.  With [s] the sine that the distance and
    the time feed, the layer is at full strength exactly where [s] is
    zero, and contributes nothing exactly where [|s|] is at least 0.8. *)
Theorem band_saturation (i : nat) (time : R) (p : vec2) :
  let s := sin (sdCircle p (0.2 - INR i * 0.05) * 8 + time * 2) in
  (band i time p = 1 <-> s = 0) /\
  (band i time p = 0 <-> 0.8 <= Rabs s).
Proof.
  cbv zeta. unfold band, smoothstep. cbv zeta.
  set (s := sin (sdCircle p (0.2 - INR i * 0.05) * 8 + time * 2)).
  replace ((Rabs s / 8 - 0) / (0.1 - 0)) with (Rabs s * 1.25) by lra.
  assert (Ht : 0 <= clamp (Rabs s * 1.25) 0 1 <= 1) by (apply clamp_range; lra).
  pose proof (clamp_zero_iff (Rabs s * 1.25)) as Hz.
  pose proof (clamp_one_iff (Rabs s * 1.25)) as Ho.
  pose proof (Rabs_zero_iff s) as Ha.
  pose proof (smoothstep_zero_iff _ Ht) as Sz.
  pose proof (smoothstep_one_iff _ Ht) as So.
  set (t := clamp (Rabs s * 1.25) 0 1) in *.
  split; split; intros H.
  - apply Ha. assert (E : t = 0) by (apply Sz; lra).
    apply Hz in E. lra.
  - assert (E : t = 0) by (apply Hz; apply Ha in H; lra).
    apply Sz in E. lra.
  - assert (E : t = 1) by (apply So; lra).
    apply Ho in E. lra.
  - assert (E : t = 1) by (apply Ho; lra).
    apply So in E. lra.
Qed.

(** X7. The colour accumulated by the three layers is bounded channel by
    channel: red by 0.295, green by 0.345, blue by 0.515, and no channel
    is negative. *)
Theorem layers_bounded (uv : vec2) (time : R) :
  let col := fold_left (layer time uv) layers (vec3_splat 0) in
  0 <= cr col <= 0.295 /\ 0 <= cg col <= 0.345 /\ 0 <= cb col <= 0.515.
Proof.
  cbv zeta. rewrite layers_unfold.
  pose proof (pattern_range 0 time (wave 0 time (rotate_scale 0 time uv))).
  pose proof (pattern_range 1 time (wave 1 time (rotate_scale 1 time uv))).
  pose proof (pattern_range 2 time (wave 2 time (rotate_scale 2 time uv))).
  unfold vec3_add, contribution, vec3_scale, vec3_splat, layerColor.
  cbn [cr cg cb INR]. repeat split; nra.
Qed.

End Layer.

Section Animation.

Lemma rot_period (a : R) (k : nat) : rot (a + 2 * INR k * PI) = rot a.
Proof. unfold rot. cbv zeta. rewrite cos_period, sin_period. reflexivity. Qed.

Lemma rotate_scale_period (i : nat) (time : R) (uv : vec2) :
  rotate_scale i (time + 20 * PI) uv = rotate_scale i time uv.
Proof.
  unfold rotate_scale. cbv zeta.
  replace ((time + 20 * PI) * 0.1 * (INR i + 1))
    with (time * 0.1 * (INR i + 1) + 2 * INR (S i) * PI)
    by (rewrite S_INR; lra).
  rewrite rot_period. reflexivity.
Qed.

Lemma wave_period (i : nat) (time : R) (p : vec2) :
  wave i (time + 20 * PI) p = wave i time p.
Proof.
  unfold wave, wave_y, wave_x. cbn [vx vy].
  assert (Hx : sin (vy p * 3 + (time + 20 * PI) * (1 + INR i * 0.5)) =
               sin (vy p * 3 + time * (1 + INR i * 0.5))).
  { replace (vy p * 3 + (time + 20 * PI) * (1 + INR i * 0.5))
      with (vy p * 3 + time * (1 + INR i * 0.5) + 2 * INR (10 + 5 * i) * PI)
      by (rewrite plus_INR, mult_INR; simpl; lra).
    apply sin_period. }
  rewrite Hx. f_equal. f_equal. f_equal.
  match goal with |- cos (?x + _) = _ =>
    replace (x + (time + 20 * PI) * (1.2 + INR i * 0.3))
      with (x + time * (1.2 + INR i * 0.3) + 2 * INR (12 + 3 * i) * PI)
      by (rewrite plus_INR, mult_INR; simpl; lra)
  end.
  apply cos_period.
Qed.

Lemma band_period (i : nat) (time : R) (p : vec2) :
  band i (time + 20 * PI) p = band i time p.
Proof.
  unfold band. cbv zeta.
  replace (sdCircle p (0.2 - INR i * 0.05) * 8 + (time + 20 * PI) * 2)
    with (sdCircle p (0.2 - INR i * 0.05) * 8 + time * 2 + 2 * INR 20 * PI)
    by (simpl; lra).
  rewrite sin_period. reflexivity.
Qed.

Lemma layer_period (time : R) (uv : vec2) (col : vec3) (i : nat) :
  layer (time + 20 * PI) uv col i = layer time uv col i.
Proof.
  unfold layer, pattern. cbv zeta.
  rewrite rotate_scale_period, wave_period, band_period. reflexivity.
Qed.

Lemma shade_period (uv : vec2) (time : R) :
  shade uv (time + 20 * PI) = shade uv time.
Proof.
  unfold shade, unvignetted. cbv zeta.
  replace (fold_left (layer (time + 20 * PI) uv) layers (vec3_splat 0))
    with (fold_left (layer time uv) layers (vec3_splat 0)); [reflexivity|].
  unfold layers. cbn [fold_left]. rewrite !layer_period. reflexivity.
Qed.

(** X8. The animation loops.  Every angle in the program is a multiple
    of the slowed-down time, so after [200 * PI / 3] seconds (about 209 s)
    every pixel shows again the colour it had. *)
Theorem animation_period (uv vUv res : vec2) (t : R) :
  shading uv (t + 200 * PI / 3) = shading uv t /\
  main (Uniforms (t + 200 * PI / 3) res) vUv = main (Uniforms t res) vUv.
Proof.
  assert (H : forall p, shade p ((t + 200 * PI / 3) * 0.3) = shade p (t * 0.3)).
  { intros p. replace ((t + 200 * PI / 3) * 0.3) with (t * 0.3 + 20 * PI) by lra.
    apply shade_period. }
  split; [apply H|]. unfold main. cbn [uTime]. rewrite H. reflexivity.
Qed.

End Animation.

Section Ranges.

Lemma length_zero_iff (uv : vec2) : length uv = 0 <-> uv = Vec2 0 0.
Proof.
  split.
  - intros H. unfold length in H.
    apply sqrt_eq_0 in H; [|apply dot_self_nonneg].
    destruct uv as [x y]. unfold dot in H. cbn [vx vy] in H.
    assert (x = 0) by nra. assert (y = 0) by nra. subst. reflexivity.
  - intros ->. unfold length, dot. cbn [vx vy].
    replace (0 * 0 + 0 * 0) with 0 by lra. apply sqrt_0.
Qed.

(** X10. The vignette factor is at most one everywhere, is one at the
    centre only, and on the square of normalised coordinates is at least
    [1 - 0.15 * sqrt 2], its value at the four corners. *)
Theorem vignette_factor_bounds (uv : vec2) :
  in_square uv ->
  1 - 0.15 * sqrt 2 <= vignette_factor uv <= 1 /\
  (vignette_factor uv = 1 <-> uv = Vec2 0 0) /\
  (Rabs (vx uv) = 1 -> Rabs (vy uv) = 1 -> vignette_factor uv = 1 - 0.15 * sqrt 2).
Proof.
  intros Hsq. rewrite vignette_factor_closed.
  pose proof (length_square_bound uv Hsq) as Hl.
  pose proof (length_nonneg uv) as Hn.
  split; [lra|]. split.
  - rewrite <- length_zero_iff. split; intros H; lra.
  - intros Hx Hy. unfold length, dot.
    assert (Ex : vx uv * vx uv = 1).
    { pose proof (Rsqr_abs (vx uv)) as E. unfold Rsqr in E. rewrite E, Hx. ring. }
    assert (Ey : vy uv * vy uv = 1).
    { pose proof (Rsqr_abs (vy uv)) as E. unfold Rsqr in E. rewrite E, Hy. ring. }
    rewrite Ex, Ey. replace (1 + 1) with 2 by lra. reflexivity.
Qed.

Lemma vignette_factor_bounds_witness :
  1 - 0.15 * sqrt 2 <= vignette_factor (Vec2 1 1) <= 1.
Proof.
  apply (vignette_factor_bounds (Vec2 1 1)).
  unfold in_square; simpl; lra.
Defined.

Lemma shade_bounds_on_square (uv : vec2) (time : R) :
  in_square uv ->
  0.062 < cr (shade uv time) < 0.336 /\
  0.093 < cg (shade uv time) < 0.416 /\
  0.1395 < cb (shade uv time) < 0.612.
Proof.
  intros Hsq. unfold shade, vec3_scale. cbn [cr cg cb].
  destruct (unvignetted_channels uv time) as (Hr & Hg & Hb).
  cbv zeta in Hr, Hg, Hb. rewrite Hr, Hg, Hb.
  pose proof (pattern_range 0 time (wave 0 time (rotate_scale 0 time uv))).
  pose proof (pattern_range 1 time (wave 1 time (rotate_scale 1 time uv))).
  pose proof (pattern_range 2 time (wave 2 time (rotate_scale 2 time uv))).
  pose proof (noise_range uv). pose proof (vignette_factor_range uv Hsq).
  repeat split; nra.
Qed.

(** X11. On the square of normalised coordinates the channels stay well
    inside the unit interval: red in (0.062, 0.336), green in
    (0.093, 0.416), blue in (0.1395, 0.612), at every time. *)
Theorem shading_channel_bounds (uv : vec2) (t : R) :
  in_square uv ->
  0.062 < cr (shading uv t) < 0.336 /\
  0.093 < cg (shading uv t) < 0.416 /\
  0.1395 < cb (shading uv t) < 0.612.
Proof. intros Hsq. apply shade_bounds_on_square, Hsq. Qed.

Lemma shading_channel_bounds_witness :
  0.062 < cr (shading (Vec2 0 0) 0) < 0.336 /\
  0.093 < cg (shading (Vec2 0 0) 0) < 0.416 /\
  0.1395 < cb (shading (Vec2 0 0) 0) < 0.612.
Proof.
  apply (shading_channel_bounds (Vec2 0 0) 0).
  unfold in_square; simpl; lra.
Defined.

Lemma normalise_in_square (vUv : vec2) :
  in_texture vUv -> in_square (vec2_scale (vec2_sub_scalar vUv 0.5) 2).
Proof.
  unfold in_texture, in_square, vec2_scale, vec2_sub_scalar. cbn [vx vy]. lra.
Qed.

(** X9. Over the rectangle, where the texture coordinate ranges over
    [0,1]^2, the normalised coordinate ranges over [-1,1]^2 and the
    fragment colour needs no clamping: every colour channel that [main]
    writes is strictly between zero and one, whatever the uniforms hold,
    and alpha is one. *)
Theorem main_in_gamut (u : uniforms) (vUv : vec2) :
  in_texture vUv ->
  in_square (vec2_scale (vec2_sub_scalar vUv 0.5) 2) /\
  0 < cr (rgb (main u vUv)) < 1 /\
  0 < cg (rgb (main u vUv)) < 1 /\
  0 < cb (rgb (main u vUv)) < 1 /\
  alpha (main u vUv) = 1.
Proof.
  intros Ht. pose proof (normalise_in_square vUv Ht) as Hsq.
  split; [exact Hsq|]. unfold main. cbn [rgb alpha].
  destruct (shade_bounds_on_square _ (uTime u * 0.3) Hsq) as (Hr & Hg & Hb).
  repeat split; lra.
Qed.

Lemma main_in_gamut_witness :
  0 < cr (rgb (main (Uniforms 0 (Vec2 800 600)) (Vec2 0.5 0.5))) < 1.
Proof.
  apply (main_in_gamut (Uniforms 0 (Vec2 800 600)) (Vec2 0.5 0.5)).
  unfold in_texture; simpl; lra.
Defined.

End Ranges.

(** ** The vertex program *)

Section Vertex.

Import VertexShader.

Lemma mat4_mul_assoc_vec (a b : mat4) (v : vec4) :
  mat4_mul_vec4 (mat4_mul a b) v = mat4_mul_vec4 a (mat4_mul_vec4 b v).
Proof.
  destruct a as [[a00 a01 a02 a03] [a10 a11 a12 a13]
                 [a20 a21 a22 a23] [a30 a31 a32 a33]].
  destruct b as [[b00 b01 b02 b03] [b10 b11 b12 b13]
                 [b20 b21 b22 b23] [b30 b31 b32 b33]].
  destruct v as [x y z w].
  cbv [mat4_mul_vec4 mat4_mul vec4_add vec4_scale hx hy hz hw c0 c1 c2 c3].
  f_equal; ring.
Qed.

Lemma mat4_mul_vec4_scale (m : mat4) (k : R) (v : vec4) :
  mat4_mul_vec4 m (vec4_scale k v) = vec4_scale k (mat4_mul_vec4 m v).
Proof.
  destruct m as [[a00 a01 a02 a03] [a10 a11 a12 a13]
                 [a20 a21 a22 a23] [a30 a31 a32 a33]].
  destruct v as [x y z w].
  cbv [mat4_mul_vec4 vec4_add vec4_scale hx hy hz hw c0 c1 c2 c3].
  f_equal; ring.
Qed.

(** X12. The vertex program hands the texture coordinate on unchanged.
    Its position is the projection applied to the model-view transform of
    the vertex, and because the homogeneous coordinate is 1.2 instead of
    one, it is 1.2 times the clip-space position of the vertex shrunk by
    the factor 1.2: on the screen the rectangle appears as one of
    [1/1.2] of its size. *)
Theorem vertex_position (projectionMatrix modelViewMatrix : mat4)
    (position : vec3) (uv : vec2) :
  let out := main projectionMatrix modelViewMatrix position uv in
  vUv out = uv /\
  gl_Position out =
    mat4_mul_vec4 projectionMatrix
      (mat4_mul_vec4 modelViewMatrix
         (Vec4 (px position) (py position) (pz position) 1.2)) /\
  gl_Position out =
    vec4_scale 1.2
      (mat4_mul_vec4 (mat4_mul projectionMatrix modelViewMatrix)
         (Vec4 (px position / 1.2) (py position / 1.2) (pz position / 1.2) 1)).
Proof.
  cbv zeta. unfold main. cbn [vUv gl_Position].
  split; [reflexivity|]. split; [apply mat4_mul_assoc_vec|].
  rewrite <- mat4_mul_vec4_scale. f_equal.
  unfold vec4_scale. cbn [hx hy hz hw]. f_equal; lra.
Qed.

End Vertex.

(** ** Runs of the host component *)

Section HostRuns.

Import Host.

Lemma step_unmounted (s : state) (e : event) :
  memo s = None -> meshRef s = None -> is_render e = false ->
  memo (step s e) = None /\ meshRef (step s e) = None.
Proof.
  intros Hm Hr He. destruct e as [| t | w h]; cbn [step]; try discriminate.
  - rewrite Hr. split; assumption.
  - split; assumption.
Qed.

Lemma run_unmounted (es : list event) (s : state) :
  memo s = None -> meshRef s = None -> forallb (fun e => negb (is_render e)) es = true ->
  memo (run s es) = None /\ meshRef (run s es) = None.
Proof.
  revert s. induction es as [| e es IH]; intros s Hm Hr Hes.
  - split; assumption.
  - cbn [forallb] in Hes. apply andb_true_iff in Hes. destruct Hes as [He Hes].
    apply negb_true_iff in He.
    destruct (step_unmounted s e Hm Hr He) as [Hm' Hr'].
    exact (IH (step s e) Hm' Hr' Hes).
Qed.

(** Once mounted, the time uniform follows the frame callbacks and
    nothing else. *)
Lemma run_mounted_time (es : list event) (s : state) (u : uniforms) (m : mesh) :
  memo s = Some u -> meshRef s = Some m ->
  exists u',
    memo (run s es) = Some u' /\
    uTime u' = match last_frame es with Some t => t | None => uTime u end.
Proof.
  revert s u. induction es as [| e es IH]; intros s u Hm Hr.
  - exists u. split; [exact Hm | reflexivity].
  - assert (Hr' : meshRef (step s e) = Some m) by (apply step_mesh, Hr).
    destruct e as [| t | w h].
    + assert (Hm' : memo (step s Render) = Some u)
        by (cbn [step memo]; unfold useMemo; rewrite Hm; reflexivity).
      destruct (IH _ _ Hm' Hr') as (u' & Hu' & Ht').
      exists u'. split; [exact Hu'|]. cbn [last_frame].
      rewrite Ht'. destruct (last_frame es); reflexivity.
    + assert (Hm' : memo (step s (Frame t)) = Some (Uniforms t (uResolution u)))
        by (cbn [step]; rewrite Hr, Hm; reflexivity).
      destruct (IH _ _ Hm' Hr') as (u' & Hu' & Ht').
      exists u'. split; [exact Hu'|]. cbn [last_frame].
      rewrite Ht'. cbn [uTime]. destruct (last_frame es); reflexivity.
    + assert (Hm' : memo (step s (Resize w h)) = Some u) by exact Hm.
      destruct (IH _ _ Hm' Hr') as (u' & Hu' & Ht').
      exists u'. split; [exact Hu'|]. cbn [last_frame].
      rewrite Ht'. destruct (last_frame es); reflexivity.
Qed.

(** X13. What the page shows.  Frame callbacks and resizes that arrive
    before the first render change nothing; from the first render on, the
    picture is the shading function at the clock value of the latest
    frame callback, and at time zero while there has been none, however
    many renders and resizes lie in between. *)
Theorem picture_follows_latest_frame
    (w : window) (before after : list event) (vUv : vec2) :
  forallb (fun e => negb (is_render e)) before = true ->
  draw (run (initial w) before) vUv = None /\
  draw (run (initial w) (before ++ Render :: after)) vUv =
    Some (GLSL.Vec4
            (shading (vec2_scale (vec2_sub_scalar vUv 0.5) 2) (shown_time after)) 1).
Proof.
  intros Hb.
  destruct (run_unmounted before (initial w) eq_refl eq_refl Hb) as [Hm Hr].
  split.
  - unfold draw. rewrite Hm. reflexivity.
  - assert (Happ : run (initial w) (before ++ Render :: after) =
                   run (step (run (initial w) before) Render) after)
      by (unfold run; rewrite fold_left_app; reflexivity).
    rewrite Happ. set (s := run (initial w) before) in *.
    destruct (run_mounted_time after (step s Render) (make_uniforms (win s))
                (Mesh (PlaneGeometry 2 2) (2, 2, 1))) as (u' & Hu' & Ht').
    + cbn [step memo]. unfold useMemo. rewrite Hm. reflexivity.
    + cbn [step meshRef]. unfold mount_mesh. rewrite Hr. reflexivity.
    + unfold draw. rewrite Hu'. unfold main, shading, shown_time.
      rewrite Ht'. cbn [uTime make_uniforms].
      destruct (last_frame after); reflexivity.
Qed.

Lemma picture_follows_latest_frame_witness :
  draw (run (initial (Window 800 600))
          ([Frame 5; Resize 1024 768] ++ Render :: [Frame 1; Render; Resize 1600 1200; Frame 2; Render]))
       (Vec2 0.5 0.5) =
  Some (GLSL.Vec4 (shading (vec2_scale (vec2_sub_scalar (Vec2 0.5 0.5) 0.5) 2)
                     (shown_time [Frame 1; Render; Resize 1600 1200; Frame 2; Render])) 1).
Proof.
  apply (picture_follows_latest_frame (Window 800 600) [Frame 5; Resize 1024 768]
           [Frame 1; Render; Resize 1600 1200; Frame 2; Render] (Vec2 0.5 0.5)).
  reflexivity.
Defined.

(** Rendering the component again is harmless: a second render in a row
    leaves the state as the first one left it, so neither the uniforms nor
    the mesh are rebuilt and the time is not reset. *)
Lemma render_idempotent (s : state) :
  step (step s Render) Render = step s Render /\
  (forall u m, memo s = Some u -> meshRef s = Some m -> step s Render = s).
Proof.
  split.
  - reflexivity.
  - intros u m Hm Hr. destruct s as [w mm mr]. cbn in *. subst.
    reflexivity.
Qed.

End HostRuns.

(** ** The copy button *)

Section CopyButton.

Import String.
Import Clipboard.

Lemma fresh_above (l : list node) (m : node) : In m l -> (key m < fresh l)%nat.
Proof.
  intros Hin. unfold fresh.
  assert (H : Forall (fun k => (k <= list_max (map key l))%nat) (map key l))
    by (apply list_max_le; lia).
  rewrite Forall_forall in H.
  specialize (H (key m) (in_map key l m Hin)). lia.
Qed.

Lemma filter_keeps (k : nat) (l : list node) :
  (forall m, In m l -> (key m < k)%nat) ->
  filter (fun m => negb (Nat.eqb (key m) k)) l = l.
Proof.
  induction l as [| a l IH]; intros H; [reflexivity|].
  cbn [filter].
  assert (Ha : Nat.eqb (key a) k = false).
  { apply Nat.eqb_neq. specialize (H a (or_introl eq_refl)). lia. }
  rewrite Ha. cbn [negb]. f_equal. apply IH.
  intros m Hm. apply H. right. exact Hm.
Qed.

Lemma remove_appended (l : list node) (v : String.string) :
  filter (fun m => negb (Nat.eqb (key m) (fresh l))) (l ++ [Node (fresh l) v]) = l.
Proof.
  rewrite filter_app. cbn [filter key]. rewrite Nat.eqb_refl. cbn [negb].
  rewrite app_nil_r. apply filter_keeps. intros m Hm. apply fresh_above, Hm.
Qed.

Lemma fallback_body (b : browser) (text : String.string) (p : page) :
  body (fallbackCopy b text p) = body p.
Proof.
  unfold fallbackCopy. cbv zeta.
  destruct (execCommand b) as [ok | err].
  - unfold removeChild, toast_success, copy_selection, select, appendChild.
    cbn [body selection key]. destruct ok; cbn [body key]; apply remove_appended.
  - unfold removeChild, console_error, toast_error, select, appendChild.
    cbn [body key]. apply remove_appended.
Qed.

(** X14. A click leaves the document as it found it: whichever path the
    handler takes, the temporary text area is gone from the body
    afterwards, also when the copy command raises an exception, and no
    other child of the body is removed. *)
Theorem copy_restores_body (b : browser) (p : page) :
  body (handleCopyEmail b p) = body p.
Proof.
  unfold handleCopyEmail.
  destruct (has_clipboard b && has_writeText b); [destruct (writeText b)|];
    try apply fallback_body.
  reflexivity.
Qed.

Lemma fallback_toasts (b : browser) (text : String.string) (p : page) :
  toasts (fallbackCopy b text p) =
  toasts p ++
    [match execCommand b with
     | Returns _ => ToastSuccess "Email copied to clipboard"%string
     | Throws _ => ToastError "Failed to copy email"%string
     end].
Proof.
  unfold fallbackCopy. cbv zeta.
  destruct (execCommand b) as [ok | err].
  - unfold removeChild, toast_success, copy_selection, select, appendChild.
    cbn [toasts selection]. destruct ok; reflexivity.
  - reflexivity.
Qed.

Lemma fallback_console (b : browser) (text : String.string) (p : page) :
  console (fallbackCopy b text p) =
  console p ++
    match execCommand b with
    | Returns _ => []
    | Throws err => [err]
    end.
Proof.
  unfold fallbackCopy. cbv zeta.
  destruct (execCommand b) as [ok | err].
  - unfold removeChild, toast_success, copy_selection, select, appendChild.
    cbn [console selection]. destruct ok; cbn [console]; rewrite app_nil_r; reflexivity.
  - reflexivity.
Qed.

(** X15. Every click shows exactly one notification.  It is the error
    notification exactly when the handler took the fallback path and the
    copy command raised an exception, and exactly then the exception is
    logged to the console; in every other case it is the success
    notification and nothing is logged. *)
Theorem copy_one_notification (b : browser) (p : page) :
  exists t,
    toasts (handleCopyEmail b p) = toasts p ++ [t] /\
    (t = ToastError "Failed to copy email"%string \/
     t = ToastSuccess "Email copied to clipboard"%string) /\
    (is_success t = false <->
     uses_fallback b = true /\ exists err, execCommand b = Throws err) /\
    console (handleCopyEmail b p) =
      console p ++
        (if uses_fallback b
         then match execCommand b with Returns _ => [] | Throws err => [err] end
         else []).
Proof.
  unfold handleCopyEmail, uses_fallback.
  destruct (has_clipboard b && has_writeText b); cbn [negb orb];
    [destruct (writeText b)|].
  - exists (ToastSuccess "Email copied to clipboard"%string).
    split; [reflexivity|]. split; [right; reflexivity|]. split.
    + cbn [is_success]. split; [discriminate | intros [H _]; discriminate].
    + cbn [console toast_success set_clipboard]. rewrite app_nil_r. reflexivity.
  - rewrite fallback_toasts, fallback_console. eexists. split; [reflexivity|].
    destruct (execCommand b) as [ok | err]; cbn [is_success].
    + split; [right; reflexivity|]. split; [|reflexivity].
      split; [discriminate | intros [_ [e He]]; discriminate].
    + split; [left; reflexivity|]. split; [|reflexivity].
      split; [intros _; split; [reflexivity | exists err; reflexivity] | reflexivity].
  - rewrite fallback_toasts, fallback_console. eexists. split; [reflexivity|].
    destruct (execCommand b) as [ok | err]; cbn [is_success].
    + split; [right; reflexivity|]. split; [|reflexivity].
      split; [discriminate | intros [_ [e He]]; discriminate].
    + split; [left; reflexivity|]. split; [|reflexivity].
      split; [intros _; split; [reflexivity | exists err; reflexivity] | reflexivity].
Qed.

Lemma fallback_clipboard (b : browser) (text : String.string) (p : page) :
  clipboard (fallbackCopy b text p) =
  match execCommand b with
  | Returns true => text
  | _ => clipboard p
  end.
Proof.
  unfold fallbackCopy. cbv zeta.
  destruct (execCommand b) as [[|] | err]; reflexivity.
Qed.

(** X16. The only text a click can put on the clipboard is the address
    shown on the page.  The clipboard holds it afterwards when the
    clipboard interface accepted the write, or when the fallback ran and
    the copy command returned true; in every other case the clipboard is
    what it was. *)
Theorem copy_clipboard (b : browser) (p : page) :
  clipboard (handleCopyEmail b p) =
    (if uses_fallback b
     then match execCommand b with
          | Returns true => email
          | _ => clipboard p
          end
     else email) /\
  (clipboard (handleCopyEmail b p) = email \/
   clipboard (handleCopyEmail b p) = clipboard p).
Proof.
  assert (H : clipboard (handleCopyEmail b p) =
    (if uses_fallback b
     then match execCommand b with
          | Returns true => email
          | _ => clipboard p
          end
     else email)).
  { unfold handleCopyEmail, uses_fallback.
    destruct (has_clipboard b && has_writeText b); cbn [negb orb];
      [destruct (writeText b)|]; try apply fallback_clipboard.
    reflexivity. }
  split; [exact H|]. rewrite H.
  destruct (uses_fallback b); [|left; reflexivity].
  destruct (execCommand b) as [[|] | err]; [left | right | right]; reflexivity.
Qed.

(** X17. The success notification does not show that the address was
    copied.  When the handler takes the fallback path and the copy command
    returns false, the result of the command is not inspected: the
    notification shown is the success one, the clipboard is unchanged and
    nothing is logged. *)
Theorem copy_reports_success_on_failed_command (b : browser) (p : page) :
  uses_fallback b = true ->
  execCommand b = Returns false ->
  toasts (handleCopyEmail b p) =
    toasts p ++ [ToastSuccess "Email copied to clipboard"%string] /\
  clipboard (handleCopyEmail b p) = clipboard p /\
  console (handleCopyEmail b p) = console p.
Proof.
  intros Hf He.
  assert (Hh : handleCopyEmail b p = fallbackCopy b email p).
  { unfold handleCopyEmail. unfold uses_fallback in Hf.
    destruct (has_clipboard b && has_writeText b); [|reflexivity].
    destruct (writeText b); [discriminate | reflexivity]. }
  rewrite Hh, fallback_toasts, fallback_clipboard, fallback_console, He.
  rewrite app_nil_r. repeat split.
Qed.

Lemma copy_reports_success_on_failed_command_witness :
  let b := Browser false false Rejects (Returns false) in
  let p := Page [Node 0 "main"%string] None "old"%string [] [] in
  toasts (handleCopyEmail b p) = [ToastSuccess "Email copied to clipboard"%string] /\
  clipboard (handleCopyEmail b p) = "old"%string.
Proof.
  cbv zeta.
  destruct (copy_reports_success_on_failed_command
              (Browser false false Rejects (Returns false))
              (Page [Node 0 "main"%string] None "old"%string [] [])) as (Ht & Hc & _).
  - reflexivity.
  - reflexivity.
  - split; [exact Ht | exact Hc].
Defined.

End CopyButton.
